(** * MLToolbox: [mltoolbox.metrics.utils.average_reports]

    A shallow embedding of [average_reports] (src/mltoolbox/metrics/utils/utils.py)
    together with the part of pandas and numpy it calls, and the theorems
    that settle the specification's claims about it.

    Numbers.  A float64 cell is its value, a rational, or NaN ([float]).
    The means of lines 34-36 and the rounding of lines 47-48 are computed
    as numpy computes them: every operation is the exact one followed by
    rounding to the nearest float64, a tie going to the even significand
    ([round64]); the sum of a mean is taken left to right, and the
    regrouping of the additions that numpy's pairwise summation makes in a
    row of eight values or more is not modelled.  Overflow, the
    infinities and the sign of zero are outside the model.  The supports
    are counts: the sum of line 33 ([nansum]) is the exact sum, which is
    what float64 addition gives for integers while the partial sums stay
    below 2^53.  An integer-typed input column is represented by the
    float values that [df.values] (line 38) turns it into.

    Sorting.  [DataFrame.sort_values] is called with pandas' default
    [kind='quicksort'], which pandas documents as not stable; the indexer it
    computes is a parameter of the development ([argsort_desc]),
    constrained only by what every sort guarantees ([argsort_contract]).
    The sort pandas runs with numpy's portable quicksort is given as well
    ([nargsort_desc]); it is what the claim about ties is settled on.

    Text.  The characters [to_string()] prints are not modelled: the text
    output is represented by the frame it renders.

    Objects.  The function is given twice: as a function of the reports'
    contents ([average_reports]), and as a program over a heap of frames
    ([average_reports_heap]) that says which object each statement creates
    or writes to; the second is proved to compute the first. *)

From Stdlib Require Import String Ascii Bool Arith ZArith QArith Qround Qreduction Qpower Qabs Lia.
From Stdlib Require Import Permutation Sorting.Sorted Lqa.
From Stdlib Require Import List.
Import ListNotations.

Local Close Scope Q_scope.
Local Open Scope string_scope.
Local Open Scope list_scope.

(** ** Floats: float64 values and NaN *)

Inductive float : Type :=
| Fin (q : Q)
| NaN.

(** The non-NaN entries of a row ([skipna=True], the default of [sum] and [mean]). *)
Definition finite (l : list float) : list Q :=
  flat_map (fun x => match x with Fin q => [q] | NaN => [] end) l.

Definition qsum (l : list Q) : Q := fold_right Qplus 0%Q l.

(** [numpy.rint]: the nearest integer, a tie going to the even one. *)
Definition rint (q : Q) : Z :=
  let f := Qfloor q in
  match (q - inject_Z f ?= 1 # 2)%Q with
  | Lt => f
  | Gt => (f + 1)%Z
  | Eq => if Z.even f then f else (f + 1)%Z
  end.

(** The binary exponent of [q <> 0]: the [c] with [2^c <= |q| < 2^(c+1)]. *)
Definition ilog2 (q : Q) : Z :=
  let c := (Z.log2 (Z.abs (Qnum q)) - Z.log2 (Zpos (Qden q)))%Z in
  if Qle_bool (2 ^ c) (Qabs q) then c else (c - 1)%Z.

(** Rounding to float64: the nearest multiple of [2^e], a tie going to the
    even multiple, where [e] leaves 53 bits to the significand and is at
    least -1074 (below [2^-1022] the floats are evenly spaced). *)
Definition round64 (q : Q) : Q :=
  if Qeq_bool q 0 then 0%Q
  else let e := Z.max (ilog2 q - 52) (-1074) in
       Qred (inject_Z (rint (q / 2 ^ e)) * 2 ^ e).

(** The float a decimal literal denotes. *)
Definition f64 (q : Q) : float := Fin (round64 q).

(** The float64 sum of a row, added left to right from its first entry. *)
Definition fsum (l : list Q) : Q :=
  match l with
  | [] => 0%Q
  | q :: l' => fold_left (fun s x => round64 (s + x)) l' q
  end.

(** [DataFrame.sum(1)] on one row of supports: NaN is skipped, the empty
    sum is 0.  The supports are counts, which float64 adds exactly. *)
Definition nansum (l : list float) : float := Fin (Qred (qsum (finite l))).

(** [DataFrame.mean(1)] on one row: NaN is skipped, the float64 sum of the
    other entries is divided by their number, the mean of nothing is NaN. *)
Definition nanmean (l : list float) : float :=
  match finite l with
  | [] => NaN
  | qs => Fin (round64 (fsum qs / inject_Z (Z.of_nat (length qs))))
  end.

(** [numpy.round(x, 2)]: the float product by 100, [rint], the float
    quotient by 100. *)
Definition round2 (x : float) : float :=
  match x with
  | Fin q => Fin (round64 (inject_Z (rint (round64 (q * 100))) / 100))
  | NaN => NaN
  end.

(** The value [astype(int)] gives a finite float: truncation towards zero. *)
Definition Qtrunc (q : Q) : Z := Z.quot (Qnum q) (Zpos (Qden q)).

(** ** Exceptions and results *)

Inductive exception : Type :=
| ValueError (msg : string)
| KeyError (labels : list string)
| TypeError (msg : string)
| InvalidIndexError
| IntCastingNaNError.

Inductive result (A : Type) : Type :=
| Ok (a : A)
| Err (e : exception).
Arguments Ok {A} a.
Arguments Err {A} e.

Definition bind {A B : Type} (m : result A) (k : A -> result B) : result B :=
  match m with
  | Ok a => k a
  | Err e => Err e
  end.

Notation "'let*' x ':=' c 'in' k" := (bind c (fun x => k))
  (at level 10, x name, c at level 100, k at level 200).

Fixpoint mapM {A B : Type} (f : A -> result B) (l : list A) : result (list B) :=
  match l with
  | [] => Ok []
  | a :: l' =>
      let* b := f a in
      let* bs := mapM f l' in
      Ok (b :: bs)
  end.

(** ** Data frames *)

(** A frame is its column labels and its rows, each row a label and the
    cells in column order; [index] is the row labels in order. *)
Record DataFrame (A : Type) : Type := mkDF {
  columns : list string;
  rows : list (string * list A)
}.
Arguments mkDF {A} columns rows.
Arguments columns {A} d.
Arguments rows {A} d.

Definition index {A : Type} (df : DataFrame A) : list string := map fst (rows df).

Definition mem (x : string) (l : list string) : bool := existsb (String.eqb x) l.

Fixpoint nodupb (l : list string) : bool :=
  match l with
  | [] => true
  | x :: l' => negb (mem x l') && nodupb l'
  end.

Fixpoint list_eqb (a b : list string) : bool :=
  match a, b with
  | [], [] => true
  | x :: a', y :: b' => String.eqb x y && list_eqb a' b'
  | _, _ => false
  end.

(** The labels of [l] in the order of their first appearance, those in
    [seen] left out (the union pandas builds with [sort=False]). *)
Fixpoint unique (seen l : list string) : list string :=
  match l with
  | [] => []
  | x :: l' => if mem x seen then unique seen l' else x :: unique (x :: seen) l'
  end.

(** *** [pd.concat(reports, axis=1)] *)

(** Side by side, position by position (no reindexing). *)
Fixpoint hcat {A : Type} (a b : list (string * list A)) : list (string * list A) :=
  match a, b with
  | (L, x) :: a', (_, y) :: b' => (L, x ++ y) :: hcat a' b'
  | _, _ => []
  end.

(** Reindexing: the row of [r] labelled [L], or a row of NaN when [r] has none. *)
Definition row_of (r : DataFrame float) (L : string) : list float :=
  match find (fun x => String.eqb (fst x) L) (rows r) with
  | Some x => snd x
  | None => repeat NaN (length (columns r))
  end.

(** Columns are put side by side and keep their (now repeated) labels.
    Equal indexes are taken as they are; otherwise the result is indexed by
    the union of the labels and every report is reindexed to it (an outer
    join), which pandas refuses for an index with a repeated label. *)
Definition concat_axis1 (reports : list (DataFrame float)) : result (DataFrame float) :=
  match reports with
  | [] => Err (ValueError "No objects to concatenate")
  | r0 :: rest =>
      let cols := concat (map columns reports) in
      if forallb (fun r => list_eqb (index r) (index r0)) rest
      then Ok (mkDF cols (fold_left (fun acc r => hcat acc (rows r)) rest (rows r0)))
      else if forallb (fun r => nodupb (index r)) reports
      then Ok (mkDF cols
                 (map (fun L => (L, concat (map (fun r => row_of r L) reports)))
                      (unique [] (concat (map index reports)))))
      else Err InvalidIndexError
  end.

(** *** Column selection and assignment *)

(** The cells of [row] under the columns labelled [name]. *)
Definition select {A : Type} (name : string) (cols : list string) (row : list A) : list A :=
  map snd (filter (fun cx => String.eqb (fst cx) name) (combine cols row)).

Definition count (name : string) (cols : list string) : nat :=
  length (filter (String.eqb name) cols).

(** [df[name]] is a Series when one column has that label and a DataFrame
    when several have. *)
Inductive selection : Type :=
| Series (v : list float)
| Frame (v : list (list float)).

Definition getitem (df : DataFrame float) (name : string) : result selection :=
  match count name (columns df) with
  | O => Err (KeyError [name])
  | S O => Ok (Series (map (fun r => hd NaN (select name (columns df) (snd r))) (rows df)))
  | _ => Ok (Frame (map (fun r => select name (columns df) (snd r)) (rows df)))
  end.

(** [.sum(1)] and [.mean(1)]: a Series has no axis 1. *)
Definition no_axis_1 : exception := ValueError "No axis named 1 for object type Series".

Definition sum_axis1 (s : selection) : result (list float) :=
  match s with
  | Series _ => Err no_axis_1
  | Frame v => Ok (map nansum v)
  end.

Definition mean_axis1 (s : selection) : result (list float) :=
  match s with
  | Series _ => Err no_axis_1
  | Frame v => Ok (map nanmean v)
  end.

Definition set_cells (name : string) (v : float) (cols : list string) (row : list float)
  : list float :=
  map (fun cx => if String.eqb (fst cx) name then v else snd cx) (combine cols row).

(** [df[name] = s]: every column labelled [name] receives [s] (a new column
    is appended when there is none). *)
Definition setitem (df : DataFrame float) (name : string) (s : list float) : DataFrame float :=
  if mem name (columns df)
  then mkDF (columns df)
         (map (fun rv => (fst (fst rv), set_cells name (snd rv) (columns df) (snd (fst rv))))
              (combine (rows df) s))
  else mkDF (columns df ++ [name])
         (map (fun rv => (fst (fst rv), snd (fst rv) ++ [snd rv])) (combine (rows df) s)).

(** [pd.DataFrame(df.values[:, :4], index=df.index, columns=df.columns[:4])] *)
Definition first4 (df : DataFrame float) : DataFrame float :=
  mkDF (firstn 4 (columns df)) (map (fun r => (fst r, firstn 4 (snd r))) (rows df)).

(** *** Rows by label *)

Definition missing_labels {A : Type} (df : DataFrame A) (labels : list string) : list string :=
  filter (fun L => negb (mem L (index df))) labels.

(** [df.drop(index=labels)]: every label must be there. *)
Definition drop {A : Type} (df : DataFrame A) (labels : list string) : result (DataFrame A) :=
  match missing_labels df labels with
  | [] => Ok (mkDF (columns df) (filter (fun r => negb (mem (fst r) labels)) (rows df)))
  | missing => Err (KeyError missing)
  end.

(** [df.loc[labels]]: the rows of each label in turn. *)
Definition loc {A : Type} (df : DataFrame A) (labels : list string) : result (DataFrame A) :=
  match missing_labels df labels with
  | [] => Ok (mkDF (columns df)
                (flat_map (fun L => filter (fun r => String.eqb (fst r) L) (rows df)) labels))
  | missing => Err (KeyError missing)
  end.

(** [pd.concat([a, b])] of two frames with the same columns. *)
Definition concat_axis0 {A : Type} (a b : DataFrame A) : DataFrame A :=
  mkDF (columns a) (rows a ++ rows b).

(** [take]: the elements at the positions [idx], in that order. *)
Definition take {A : Type} (l : list A) (idx : list nat) : list A :=
  flat_map (fun i => match nth_error l i with Some x => [x] | None => [] end) idx.

(** *** Rounding, the integer cast and the two output forms *)

(** [report_final[report_final.columns[:3]] = report_final[...].round(2)]:
    the first three labels select by name, so with pairwise distinct labels
    the first three columns are rounded; with a repeated label the
    column-by-column assignment meets a frame of the wrong width. *)
Definition round_first3 (df : DataFrame float) : result (DataFrame float) :=
  if nodupb (columns df)
  then Ok (mkDF (columns df)
             (map (fun r => (fst r, map round2 (firstn 3 (snd r)) ++ skipn 3 (snd r))) (rows df)))
  else Err (ValueError "Columns must be same length as key").

(** A cell of the final frame: its columns no longer share one dtype. *)
Inductive cell : Type :=
| CFloat (x : float)
| CInt (z : Z).

Definition to_int (x : float) : result Z :=
  match x with
  | Fin q => Ok (Qtrunc q)
  | NaN => Err IntCastingNaNError
  end.

Definition cast_cell (cx : string * float) : result cell :=
  if String.eqb (fst cx) "support"
  then let* z := to_int (snd cx) in Ok (CInt z)
  else Ok (CFloat (snd cx)).

(** [report_final[['support']] = report_final[['support']].astype(int)]:
    selected by name. *)
Definition astype_int_support (df : DataFrame float) : result (DataFrame cell) :=
  if mem "support" (columns df)
  then
    let* rs := mapM (fun r => let* cs := mapM cast_cell (combine (columns df) (snd r)) in
                              Ok (fst r, cs)) (rows df) in
    Ok (mkDF (columns df) rs)
  else Err (KeyError ["support"]).

(** A Python value of the returned dictionary. *)
Inductive pyvalue : Type :=
| PyFloat (x : float)
| PyInt (z : Z).

Definition is_int (c : cell) : bool :=
  match c with
  | CInt _ => true
  | CFloat _ => false
  end.

(** [.T] stores the transposed cells in one array of their common dtype:
    int64 next to float64 becomes float64. *)
Definition upcast (all_int : bool) (c : cell) : pyvalue :=
  match c with
  | CFloat x => PyFloat x
  | CInt z => if all_int then PyInt z else PyFloat (Fin (inject_Z z))
  end.

(** A Python dictionary built from key-value pairs: a repeated key keeps
    its first place and takes the last value. *)
Fixpoint dict_set {V : Type} (k : string) (v : V) (d : list (string * V)) : list (string * V) :=
  match d with
  | [] => [(k, v)]
  | kv :: d' => if String.eqb (fst kv) k then (k, v) :: d' else kv :: dict_set k v d'
  end.

Definition py_dict {V : Type} (l : list (string * V)) : list (string * V) :=
  fold_left (fun d kv => dict_set (fst kv) (snd kv) d) l [].

Definition pydict : Type := list (string * list (string * pyvalue)).

(** [report_final.T.to_dict()] *)
Definition T_to_dict (df : DataFrame cell) : pydict :=
  let all_int := forallb (fun r => forallb is_int (snd r)) (rows df) in
  py_dict (map (fun r => (fst r, py_dict (combine (columns df) (map (upcast all_int) (snd r)))))
               (rows df)).

(** What [average_reports] returns.  The text of [to_string()] is not
    modelled: [OutStr df] stands for the rendering of [df], whose rows and
    cells it shows in order. *)
Inductive output : Type :=
| OutDict (d : pydict)
| OutStr (df : DataFrame cell).

Definition summary_rows : list string := ["macro avg"; "weighted avg"].

(** ** The function *)

Section AverageReports.

(** The indexer of [sort_values('support', ascending=False)] for a column
    of keys: position [i] of the result names the row that comes [i]-th. *)
Variable argsort_desc : list float -> list nat.

Definition sort_values_desc (df : DataFrame float) (by_ : string) : result (DataFrame float) :=
  match count by_ (columns df) with
  | O => Err (KeyError [by_])
  | S O =>
      let keys := map (fun r => hd NaN (select by_ (columns df) (snd r))) (rows df) in
      Ok (mkDF (columns df) (take (rows df) (argsort_desc keys)))
  | _ => Err (ValueError "The column label is not unique")
  end.

(** Lines 32-38: concatenate, aggregate by column label, keep four columns. *)
Definition aggregate (reports : list (DataFrame float)) : result (DataFrame float) :=
  let* df := concat_axis1 reports in
  let* s := getitem df "support" in
  let* s := sum_axis1 s in
  let df := setitem df "support" s in
  let* s := getitem df "precision" in
  let* s := mean_axis1 s in
  let df := setitem df "precision" s in
  let* s := getitem df "recall" in
  let* s := mean_axis1 s in
  let df := setitem df "recall" s in
  let* s := getitem df "f1-score" in
  let* s := mean_axis1 s in
  let df := setitem df "f1-score" s in
  Ok (first4 df).

(** Lines 39-42: drop "micro avg" and "accuracy" when present. *)
Definition drop_if_present (df : DataFrame float) (label : string) : result (DataFrame float) :=
  if mem label (index df) then drop df [label] else Ok df.

(** Lines 43-46: class rows by descending support, then the summary rows. *)
Definition reassemble (df : DataFrame float) : result (DataFrame float) :=
  let* classes := drop df summary_rows in
  let* report_final := sort_values_desc classes "support" in
  let* summary := loc df summary_rows in
  Ok (concat_axis0 report_final summary).

(** Lines 32-49: the frame that is then rendered. *)
Definition report_final (reports : list (DataFrame float)) : result (DataFrame cell) :=
  let* df := aggregate reports in
  let* df := drop_if_present df "micro avg" in
  let* df := drop_if_present df "accuracy" in
  let* rf := reassemble df in
  let* rf := round_first3 rf in
  astype_int_support rf.

Definition average_reports (reports : list (DataFrame float)) (output_dict : bool)
  : result output :=
  let* rf := report_final reports in
  Ok (if output_dict then OutDict (T_to_dict rf) else OutStr rf).

End AverageReports.

(** ** Descending sorts *)

(** [fge a b]: [a] may stand before [b] in descending order, NaN last. *)
Definition fge (a b : float) : bool :=
  match a, b with
  | _, NaN => true
  | NaN, Fin _ => false
  | Fin x, Fin y => Qle_bool y x
  end.

Definition feqb (a b : float) : bool := fge a b && fge b a.

Definition enumerate (keys : list float) : list (nat * float) :=
  combine (seq 0 (length keys)) keys.

(** Larger key first; equal keys in the order of their positions. *)
Definition stable_leb (a b : nat * float) : bool :=
  if feqb (snd a) (snd b) then Nat.leb (fst a) (fst b) else fge (snd a) (snd b).

(** Insertion sort by [leb]. *)
Fixpoint insert {A : Type} (leb : A -> A -> bool) (x : A) (l : list A) : list A :=
  match l with
  | [] => [x]
  | y :: l' => if leb x y then x :: l else y :: insert leb x l'
  end.

Definition isort {A : Type} (leb : A -> A -> bool) (l : list A) : list A :=
  fold_right (insert leb) [] l.

(** The stable descending sort: equal keys stay in the order of their
    positions. *)
Definition stable_argsort (keys : list float) : list nat :=
  map fst (isort stable_leb (enumerate keys)).

(** What every descending sort guarantees of its indexer: it names each
    position once, and the keys it names do not increase. *)
Definition argsort_contract (argsort : list float -> list nat) : Prop :=
  forall keys,
    Permutation (argsort keys) (seq 0 (length keys)) /\
    StronglySorted (fun a b => fge a b = true) (take keys (argsort keys)).

(** ** The sort pandas runs *)





Section Quicksort.

(** The keys [v], and the heapsort that the quicksort hands a partition to
    once it is [2 * floor(log2 n)] partitions deep (left open: it is not
    reached in what follows). *)
Variable v : list float.
Variable heapsort : list nat -> list nat.










End Quicksort.




(** ** Reading reports and outputs *)

Definition report_columns : list string := ["precision"; "recall"; "f1-score"; "support"].

(** The cell of [r] at row [L], column [name]. *)
Definition cell_of (r : DataFrame float) (L name : string) : float :=
  hd NaN (select name (columns r) (row_of r L)).

Definition lookup {V : Type} (k : string) (d : list (string * V)) : option V :=
  option_map snd (find (fun kv => String.eqb (fst kv) k) d).

Definition show_cell (c : cell) : pyvalue :=
  match c with
  | CFloat x => PyFloat x
  | CInt z => PyInt z
  end.

(** The rows of an output, each with its values by column label: the
    dictionary itself, or what the rendered frame shows. *)
Definition out_rows (o : output) : pydict :=
  match o with
  | OutDict d => d
  | OutStr df => map (fun r => (fst r, combine (columns df) (map show_cell (snd r)))) (rows df)
  end.

Definition out_labels (o : output) : list string := map fst (out_rows o).

Definition out_value (o : output) (L name : string) : option pyvalue :=
  match lookup L (out_rows o) with
  | Some row => lookup name row
  | None => None
  end.

(** ** Inputs as the specification describes them *)

(** Unique row labels, and as many cells in each row as there are columns. *)
Definition well_formed (r : DataFrame float) : Prop :=
  NoDup (index r) /\ Forall (fun row => length (snd row) = length (columns r)) (rows r).

(** Each of the four column labels occurs once. *)
Definition has_columns (r : DataFrame float) : Prop :=
  forall name, In name report_columns -> count name (columns r) = 1.

(** The cells of row [L], column [name], one per report. *)
Definition col (reports : list (DataFrame float)) (L name : string) : list float :=
  map (fun r => cell_of r L name) reports.

(** The reports share their row labels. *)
Definition same_labels (reports : list (DataFrame float)) : Prop :=
  forall r r' L, In r reports -> In r' reports -> In L (index r) -> In L (index r').

(** A non-empty list of reports with the four documented columns, unique
    row labels and the same row labels in every report. *)
Definition valid_reports (reports : list (DataFrame float)) : Prop :=
  reports <> [] /\
  (forall r, In r reports -> columns r = report_columns /\ well_formed r) /\
  same_labels reports.

(** The reports the function is documented for, behind a first report whose
    columns stand in the documented order: every report has the four
    columns and unique row labels, and no label the first one lacks. *)
Definition joinable (r0 : DataFrame float) (rest : list (DataFrame float)) : Prop :=
  columns r0 = report_columns /\
  (forall r, In r (r0 :: rest) -> has_columns r /\ well_formed r) /\
  (forall r L, In r rest -> In L (index r) -> In L (index r0)).




(** A metric value: a number between 0 and 1. *)
Definition unit_interval (q : Q) : Prop := (0 <= q <= 1)%Q.


(** ** The output in closed form *)

Definition without (labels idx : list string) : list string :=
  filter (fun L => negb (mem L labels)) idx.

(** The summed support of a label, as the float the sort compares and as
    the integer the final frame holds. *)
Definition support_key (reports : list (DataFrame float)) (L : string) : float :=
  nansum (col reports L "support").

Definition summed_support (reports : list (DataFrame float)) (L : string) : Z :=
  Qtrunc (Qred (qsum (finite (col reports L "support")))).

(** The class labels: what lines 39-43 leave of the index. *)
Definition class_labels (idx : list string) : list string :=
  without summary_rows (without ["accuracy"] (without ["micro avg"] idx)).

Definition aggregated_row (reports : list (DataFrame float)) (L : string) : list float :=
  [nanmean (col reports L "precision"); nanmean (col reports L "recall");
   nanmean (col reports L "f1-score"); nansum (col reports L "support")].

Definition final_row (reports : list (DataFrame float)) (L : string) : list cell :=
  [CFloat (round2 (nanmean (col reports L "precision")));
   CFloat (round2 (nanmean (col reports L "recall")));
   CFloat (round2 (nanmean (col reports L "f1-score")));
   CInt (summed_support reports L)].

(** The values of row [L] as the output shows them: in the dictionary the
    support is the float that [.T] made of the integer. *)
Definition value_row (output_dict : bool) (reports : list (DataFrame float)) (L : string)
  : list (string * pyvalue) :=
  [("precision", PyFloat (round2 (nanmean (col reports L "precision"))));
   ("recall", PyFloat (round2 (nanmean (col reports L "recall"))));
   ("f1-score", PyFloat (round2 (nanmean (col reports L "f1-score"))));
   ("support", if output_dict
               then PyFloat (Fin (inject_Z (summed_support reports L)))
               else PyInt (summed_support reports L))].



Section Order.

Variable argsort_desc : list float -> list nat.

Definition sorted_classes (reports : list (DataFrame float)) (idx : list string) : list string :=
  take (class_labels idx) (argsort_desc (map (support_key reports) (class_labels idx))).

Definition row_order (reports : list (DataFrame float)) (idx : list string) : list string :=
  sorted_classes reports idx ++ summary_rows.

End Order.

(** ** The steps of the function, row by row *)

(** The index of the concatenation: the labels of all reports, each once,
    in the order of their first appearance. *)
Definition joined_index (reports : list (DataFrame float)) : list string :=
  unique [] (concat (map index reports)).

Definition joined_row (reports : list (DataFrame float)) (L : string) : list float :=
  concat (map (fun r => row_of r L) reports).

(** One of lines 33-36 on one row: reduce the cells labelled [name] and
    write the result under every such label. *)
Definition agg_step (red : list float -> float) (name : string) (cols : list string)
    (row : list float) : list float :=
  set_cells name (red (select name cols row)) cols row.

Definition agg_frame (red : list float -> float) (name : string) (df : DataFrame float)
  : DataFrame float :=
  mkDF (columns df) (map (fun r => (fst r, agg_step red name (columns df) (snd r))) (rows df)).

Definition aggregated (df : DataFrame float) : DataFrame float :=
  first4 (agg_frame nanmean "f1-score" (agg_frame nanmean "recall"
            (agg_frame nanmean "precision" (agg_frame nansum "support" df)))).

(** The four steps of lines 33-36 on one row, then the cut of line 38. *)
Definition agg_row (cols : list string) (row : list float) : list float :=
  firstn 4 (agg_step nanmean "f1-score" cols (agg_step nanmean "recall" cols
             (agg_step nanmean "precision" cols (agg_step nansum "support" cols row)))).

(** The frame with rows [g L] for the labels [L] of [idx]. *)
Definition tab {A : Type} (cols : list string) (g : string -> list A) (idx : list string)
  : DataFrame A :=
  mkDF cols (map (fun L => (L, g L)) idx).

(** ** Objects: which frames the function writes to *)

(** The frames live in a heap and are named by their addresses.  Every
    pandas call of [average_reports] that returns a frame returns a new
    object; the item assignments of lines 33-36 and 47-49 write to the
    object their variable names. *)
Inductive object : Type :=
| FloatFrame (df : DataFrame float)
| CellFrame (df : DataFrame cell).

Definition heap : Type := list object.

Definition M (A : Type) : Type := heap -> result A * heap.

Definition ret {A : Type} (a : A) : M A := fun h => (Ok a, h).

Definition bindM {A B : Type} (m : M A) (k : A -> M B) : M B :=
  fun h =>
    match m h with
    | (Ok a, h') => k a h'
    | (Err e, h') => (Err e, h')
    end.

Notation "x <- m ;; k" := (bindM m (fun x => k))
  (at level 61, m at next level, right associativity).

Definition lift {A : Type} (r : result A) : M A := fun h => (r, h).

(** A new object, at the next free address. *)
Definition new (o : object) : M nat := fun h => (Ok (length h), h ++ [o]).

Definition not_a_frame : exception := TypeError "cannot concatenate object".

Definition get (a : nat) : M (DataFrame float) :=
  fun h =>
    match nth_error h a with
    | Some (FloatFrame df) => (Ok df, h)
    | _ => (Err not_a_frame, h)
    end.

Definition get_cells (a : nat) : M (DataFrame cell) :=
  fun h =>
    match nth_error h a with
    | Some (CellFrame df) => (Ok df, h)
    | _ => (Err not_a_frame, h)
    end.

Fixpoint update {A : Type} (n : nat) (x : A) (l : list A) {struct l} : list A :=
  match l, n with
  | [], _ => []
  | _ :: l', O => x :: l'
  | y :: l', S n' => y :: update n' x l'
  end.

(** Writing to the object at an address. *)
Definition put (a : nat) (o : object) : M unit := fun h => (Ok tt, update a o h).

Fixpoint get_all (addresses : list nat) : M (list (DataFrame float)) :=
  match addresses with
  | [] => ret []
  | a :: rest =>
      df <- get a ;;
      dfs <- get_all rest ;;
      ret (df :: dfs)
  end.

(** [df[name] = df[name].sum(1)] or [.mean(1)], on the object [df] names. *)
Definition assign_reduced (df : nat) (name : string)
    (reduce : selection -> result (list float)) : M unit :=
  d <- get df ;;
  s <- lift (let* s := getitem d name in reduce s) ;;
  put df (FloatFrame (setitem d name s)).

(** Lines 39-42: [df] is rebound to the new frame [drop] returns. *)
Definition drop_if_present_heap (df : nat) (label : string) : M nat :=
  d <- get df ;;
  if mem label (index d)
  then c <- lift (drop d [label]) ;; new (FloatFrame c)
  else ret df.

(** Lines 32-38: the concatenation is a new object, assigned to four
    times; line 38 builds another. *)
Definition aggregate_heap (reports : list nat) : M nat :=
  frames <- get_all reports ;;
  c <- lift (concat_axis1 frames) ;;
  df <- new (FloatFrame c) ;;
  _ <- assign_reduced df "support" sum_axis1 ;;
  _ <- assign_reduced df "precision" mean_axis1 ;;
  _ <- assign_reduced df "recall" mean_axis1 ;;
  _ <- assign_reduced df "f1-score" mean_axis1 ;;
  d <- get df ;;
  new (FloatFrame (first4 d)).

Section OnTheHeap.

Variable argsort_desc : list float -> list nat.

(** Lines 43-46: [drop], [sort_values], [loc] and [pd.concat] each return
    a new object. *)
Definition reassemble_heap (df : nat) : M nat :=
  d <- get df ;;
  c <- lift (drop d summary_rows) ;;
  classes <- new (FloatFrame c) ;;
  c <- get classes ;;
  s <- lift (sort_values_desc argsort_desc c "support") ;;
  report_final <- new (FloatFrame s) ;;
  t <- lift (loc d summary_rows) ;;
  summary <- new (FloatFrame t) ;;
  a <- get report_final ;;
  b <- get summary ;;
  new (FloatFrame (concat_axis0 a b)).

(** Lines 47-54: the two assignments write to [report_final]; the value
    returned is built from it. *)
Definition render_heap (report_final : nat) (output_dict : bool) : M output :=
  r <- get report_final ;;
  r <- lift (round_first3 r) ;;
  _ <- put report_final (FloatFrame r) ;;
  r <- get report_final ;;
  c <- lift (astype_int_support r) ;;
  _ <- put report_final (CellFrame c) ;;
  c <- get_cells report_final ;;
  ret (if output_dict then OutDict (T_to_dict c) else OutStr c).

(** [average_reports] on the objects named by [reports]. *)
Definition average_reports_heap (reports : list nat) (output_dict : bool) : M output :=
  df <- aggregate_heap reports ;;
  df <- drop_if_present_heap df "micro avg" ;;
  df <- drop_if_present_heap df "accuracy" ;;
  report_final <- reassemble_heap df ;;
  render_heap report_final output_dict.

End OnTheHeap.

(** [h] is [h0] followed by new objects. *)
Definition extends (h0 h : heap) : Prop := exists fresh, h = h0 ++ fresh.

(** Run from a heap that extends [h0], [m] leaves one that extends [h0],
    and what it returns satisfies [Q]. *)
Definition keeps {A : Type} (h0 : heap) (m : M A) (Q : A -> Prop) : Prop :=
  forall h, extends h0 h ->
    extends h0 (snd (m h)) /\ forall a, fst (m h) = Ok a -> Q a.

(** [m], run from [h], returns the address of a new frame holding what [r]
    is, or raises what [r] raises; the objects of [h] are as they were. *)
Definition returns_frame (m : M nat) (r : result (DataFrame float)) (h : heap) : Prop :=
  match m h with
  | (Ok a, h') =>
      exists d, r = Ok d /\ nth_error h' a = Some (FloatFrame d) /\
                forall b, b < length h -> nth_error h' b = nth_error h b
  | (Err e, _) => r = Err e
  end.

(** ** Reports that do not share their labels *)



(** ** Example reports *)

Definition fold_a : DataFrame float :=
  mkDF report_columns
    [("A", [f64 0.80; f64 0.70; f64 0.75; Fin 10%Q]);
     ("B", [f64 0.60; f64 0.50; f64 0.55; Fin 5%Q]);
     ("accuracy", [f64 0.73; f64 0.73; f64 0.73; f64 0.73]);
     ("micro avg", [f64 0.73; f64 0.63; f64 0.68; Fin 15%Q]);
     ("macro avg", [f64 0.70; f64 0.60; f64 0.65; Fin 15%Q]);
     ("weighted avg", [f64 0.73; f64 0.63; f64 0.68; Fin 15%Q])].

Definition fold_b : DataFrame float :=
  mkDF report_columns
    [("A", [f64 0.81; f64 0.72; f64 0.755; Fin 10%Q]);
     ("B", [f64 0.62; f64 0.50; f64 0.55; Fin 5%Q]);
     ("accuracy", [f64 0.75; f64 0.75; f64 0.75; f64 0.75]);
     ("micro avg", [f64 0.75; f64 0.65; f64 0.69; Fin 15%Q]);
     ("macro avg", [f64 0.72; f64 0.61; f64 0.65; Fin 15%Q]);
     ("weighted avg", [f64 0.75; f64 0.65; f64 0.69; Fin 15%Q])].


(** [fold_b] without its "macro avg" row. *)
Definition fold_b_no_macro : DataFrame float :=
  mkDF report_columns
    [("A", [f64 0.81; f64 0.72; f64 0.755; Fin 10%Q]);
     ("B", [f64 0.62; f64 0.50; f64 0.55; Fin 5%Q]);
     ("weighted avg", [f64 0.75; f64 0.65; f64 0.69; Fin 15%Q])].




(** A fold with the class "C" in place of "B", and no "accuracy" or
    "micro avg" row. *)
Definition fold_c : DataFrame float :=
  mkDF report_columns
    [("A", [f64 0.90; f64 0.80; f64 0.85; Fin 8%Q]);
     ("C", [f64 0.50; f64 0.40; f64 0.45; Fin 4%Q]);
     ("macro avg", [f64 0.70; f64 0.60; f64 0.65; Fin 12%Q]);
     ("weighted avg", [f64 0.77; f64 0.67; f64 0.72; Fin 12%Q])].

(** Two folds without the column "recall". *)
Definition fold_a_no_recall : DataFrame float :=
  mkDF ["precision"; "f1-score"; "support"]
    [("A", [f64 0.80; f64 0.75; Fin 10%Q]);
     ("macro avg", [f64 0.80; f64 0.75; Fin 10%Q]);
     ("weighted avg", [f64 0.80; f64 0.75; Fin 10%Q])].

Definition fold_b_no_recall : DataFrame float :=
  mkDF ["precision"; "f1-score"; "support"]
    [("A", [f64 0.81; f64 0.755; Fin 10%Q]);
     ("macro avg", [f64 0.81; f64 0.755; Fin 10%Q]);
     ("weighted avg", [f64 0.81; f64 0.755; Fin 10%Q])].



(** * Proofs *)

(** ** Float64 arithmetic *)

Lemma rint_close q : (- (1 # 2) <= inject_Z (rint q) - q <= 1 # 2)%Q.
Proof.
  unfold rint. pose proof (Qfloor_le q) as Hlo. pose proof (Qlt_floor q) as Hhi.
  rewrite inject_Z_plus in Hhi. change (inject_Z 1) with 1%Q in Hhi.
  destruct (q - inject_Z (Qfloor q) ?= 1 # 2)%Q eqn:E.
  - apply Qeq_alt in E. destruct (Z.even (Qfloor q)).
    + split; lra.
    + rewrite inject_Z_plus. change (inject_Z 1) with 1%Q. split; lra.
  - apply Qlt_alt in E. split; lra.
  - apply Qgt_alt in E. rewrite inject_Z_plus. change (inject_Z 1) with 1%Q. split; lra.
Qed.

Lemma two_neq_0 : ~ (2 == 0)%Q.
Proof. discriminate. Qed.

Lemma pow2_pos e : (0 < 2 ^ e)%Q.
Proof. apply Qpower_0_lt. reflexivity. Qed.

Lemma pow2_le a b : (a <= b)%Z -> (2 ^ a <= 2 ^ b)%Q.
Proof. intros H. apply Qpower_le_compat_l; [exact H|discriminate]. Qed.

Lemma pow2_succ e : (2 ^ (e + 1) == 2 * 2 ^ e)%Q.
Proof. rewrite Qpower_plus by exact two_neq_0. change (2 ^ 1)%Q with 2%Q. ring. Qed.

(** [2^(ilog2 q) <= |q|] *)
Lemma ilog2_le q : ~ (q == 0)%Q -> (2 ^ ilog2 q <= Qabs q)%Q.
Proof.
  intros Hq. unfold ilog2.
  set (a := Z.abs (Qnum q)). set (d := Zpos (Qden q)).
  destruct (Qle_bool (2 ^ (Z.log2 a - Z.log2 d)) (Qabs q)) eqn:E.
  - now apply Qle_bool_iff.
  - assert (Ha : (0 < a)%Z).
    { unfold a. destruct q as [n dd]. cbn [Qnum]. unfold Qeq in Hq. cbn in Hq. lia. }
    assert (Hd : (0 < d)%Z) by (unfold d; lia).
    destruct (Z.log2_spec a Ha) as [Ha1 _].
    destruct (Z.log2_spec d Hd) as [_ Hd2].
    pose proof (Z.log2_nonneg a) as Hla. pose proof (Z.log2_nonneg d) as Hld.
    assert (Ea : (2 ^ Z.log2 a <= inject_Z a)%Q).
    { rewrite <- (Zpower_Qpower 2 _ Hla). now rewrite <- Zle_Qle. }
    assert (Ed : (inject_Z d <= 2 ^ (Z.log2 d + 1))%Q).
    { rewrite <- (Zpower_Qpower 2) by lia. rewrite <- Zle_Qle.
      rewrite <- Z.add_1_r in Hd2. lia. }
    assert (Eabs : (Qabs q == inject_Z a / inject_Z d)%Q).
    { destruct q as [n dd]. unfold a, d. cbn [Qnum Qden Qabs]. apply Qmake_Qdiv. }
    rewrite Eabs.
    assert (Hdq : (0 < inject_Z d)%Q) by (change 0%Q with (inject_Z 0); now rewrite <- Zlt_Qlt).
    apply Qle_shift_div_l; [exact Hdq|].
    replace (Z.log2 a - Z.log2 d - 1)%Z with (Z.log2 a - (Z.log2 d + 1))%Z by lia.
    rewrite Qpower_minus by exact two_neq_0.
    pose proof (pow2_pos (Z.log2 d + 1)) as Hp.
    pose proof (pow2_pos (Z.log2 a)) as Hpa.
    apply Qle_trans with (2 ^ Z.log2 a)%Q; [|exact Ea].
    apply Qle_trans with (2 ^ Z.log2 a / 2 ^ (Z.log2 d + 1) * 2 ^ (Z.log2 d + 1))%Q.
    + apply Qmult_le_l; [|exact Ed].
      apply Qlt_shift_div_l; [exact Hp|]. lra.
    + apply Qle_lteq. right. field. intros H0. rewrite H0 in Hp. lra.
Qed.

Lemma ilog2_bound q p : ~ (q == 0)%Q -> (Qabs q <= 2 ^ p)%Q -> (ilog2 q <= p)%Z.
Proof.
  intros Hq H. apply (Qpower_le_compat_l_inv 2); [|reflexivity].
  eapply Qle_trans; [now apply ilog2_le|exact H].
Qed.

Lemma Qabs_bounds x e : (- e <= x <= e)%Q <-> (Qabs x <= e)%Q.
Proof.
  split.
  - intros [H1 H2]. apply Qabs_case; intros; lra.
  - intros H. split.
    + pose proof (Qle_Qabs (- x)) as H1. rewrite Qabs_opp in H1. lra.
    + pose proof (Qle_Qabs x). lra.
Qed.

(** The distance to the rounded value is at most half the spacing. *)
Lemma round64_error q p :
  (Qabs q <= 2 ^ p)%Q -> (-1022 <= p)%Z ->
  (- 2 ^ (p - 53) <= round64 q - q <= 2 ^ (p - 53))%Q.
Proof.
  intros Hq Hp. unfold round64.
  destruct (Qeq_bool q 0) eqn:E.
  - apply Qeq_bool_iff in E. pose proof (pow2_pos (p - 53)). rewrite E. split; lra.
  - apply Qeq_bool_neq in E.
    set (e := Z.max (ilog2 q - 52) (-1074)).
    assert (He : (e <= p - 52)%Z).
    { pose proof (ilog2_bound q p E Hq). unfold e. lia. }
    rewrite Qred_correct.
    pose proof (rint_close (q / 2 ^ e)) as [Hlo Hhi].
    pose proof (pow2_pos e) as Hpe.
    assert (Ediff : (inject_Z (rint (q / 2 ^ e)) * 2 ^ e - q
                     == (inject_Z (rint (q / 2 ^ e)) - q / 2 ^ e) * 2 ^ e)%Q).
    { field. intros H0. rewrite H0 in Hpe. lra. }
    rewrite Ediff.
    assert (Hhalf : (2 ^ e <= 2 * 2 ^ (p - 53))%Q).
    { rewrite <- pow2_succ. apply pow2_le. lia. }
    set (r := (inject_Z (rint (q / 2 ^ e)) - q / 2 ^ e)%Q) in *.
    split.
    + apply Qle_trans with (- (1 # 2) * 2 ^ e)%Q; [lra|].
      apply Qmult_le_compat_r; [lra|lra].
    + apply Qle_trans with ((1 # 2) * 2 ^ e)%Q; [|lra].
      apply Qmult_le_compat_r; [lra|lra].
Qed.

Lemma rint_le_int y M : (y <= inject_Z M)%Q -> (rint y <= M)%Z.
Proof.
  intros H. destruct (rint_close y) as [_ Hhi].
  assert (Hlt : (rint y < M + 1)%Z); [|lia].
  rewrite Zlt_Qlt, inject_Z_plus. change (inject_Z 1) with 1%Q. lra.
Qed.

Lemma rint_ge_int y M : (inject_Z M <= y)%Q -> (M <= rint y)%Z.
Proof.
  intros H. destruct (rint_close y) as [Hlo _].
  assert (Hlt : (M < rint y + 1)%Z); [|lia].
  rewrite Zlt_Qlt, inject_Z_plus. change (inject_Z 1) with 1%Q. lra.
Qed.

(** Rounding does not cross an integer below [2^53]. *)
Lemma round64_le_int q N :
  (0 <= q <= inject_Z N)%Q -> (N < 2 ^ 53)%Z ->
  (0 <= round64 q <= inject_Z N)%Q.
Proof.
  intros [H0 HN] Hbig. unfold round64.
  destruct (Qeq_bool q 0) eqn:E.
  - split; lra.
  - apply Qeq_bool_neq in E.
    set (e := Z.max (ilog2 q - 52) (-1074)).
    assert (He : (e <= 0)%Z).
    { assert (Hl : (ilog2 q < 53)%Z); [|unfold e; lia].
      apply (Qpower_lt_compat_l_inv 2); [|reflexivity].
      apply Qle_lt_trans with (Qabs q); [now apply ilog2_le|].
      rewrite Qabs_pos by exact H0.
      apply Qle_lt_trans with (inject_Z N); [exact HN|].
      rewrite <- (Zpower_Qpower 2 53) by lia. now rewrite <- Zlt_Qlt. }
    rewrite Qred_correct.
    pose proof (pow2_pos e) as Hpe.
    assert (EM : (inject_Z (N * 2 ^ (- e)) == inject_Z N / 2 ^ e)%Q).
    { rewrite inject_Z_mult, (Zpower_Qpower 2) by lia.
      change (inject_Z 2) with 2%Q. rewrite Qpower_opp. reflexivity. }
    assert (Hy0 : (inject_Z 0 <= q / 2 ^ e)%Q).
    { change (inject_Z 0) with 0%Q. apply Qle_shift_div_l; [exact Hpe|]. lra. }
    assert (Hy1 : (q / 2 ^ e <= inject_Z (N * 2 ^ (- e)))%Q).
    { rewrite EM. apply Qle_shift_div_l; [exact Hpe|].
      apply Qle_trans with q; [|exact HN].
      apply Qle_lteq. right. field. intros Hz. rewrite Hz in Hpe. lra. }
    apply rint_ge_int in Hy0. apply rint_le_int in Hy1.
    rewrite Zle_Qle in Hy0, Hy1. rewrite EM in Hy1. change (inject_Z 0) with 0%Q in Hy0.
    set (m := inject_Z (rint (q / 2 ^ e))) in *.
    split.
    + apply Qmult_le_0_compat; lra.
    + apply Qle_trans with (inject_Z N / 2 ^ e * 2 ^ e)%Q.
      * apply Qmult_le_compat_r; lra.
      * apply Qle_lteq. right. field. intros Hz. rewrite Hz in Hpe. lra.
Qed.

(** [|q| < 2^(ilog2 q + 1)] *)
Lemma ilog2_lt q : ~ (q == 0)%Q -> (Qabs q < 2 ^ (ilog2 q + 1))%Q.
Proof.
  intros Hq. unfold ilog2.
  set (a := Z.abs (Qnum q)). set (d := Zpos (Qden q)).
  destruct (Qle_bool (2 ^ (Z.log2 a - Z.log2 d)) (Qabs q)) eqn:E.
  - assert (Ha : (0 < a)%Z).
    { unfold a. destruct q as [n dd]. cbn [Qnum]. unfold Qeq in Hq. cbn in Hq. lia. }
    assert (Hd : (0 < d)%Z) by (unfold d; lia).
    destruct (Z.log2_spec a Ha) as [_ Ha2].
    destruct (Z.log2_spec d Hd) as [Hd1 _].
    pose proof (Z.log2_nonneg a) as Hla. pose proof (Z.log2_nonneg d) as Hld.
    assert (Ea : (inject_Z a < 2 ^ (Z.log2 a + 1))%Q).
    { rewrite <- (Zpower_Qpower 2) by lia. rewrite <- Zlt_Qlt.
      rewrite <- Z.add_1_r in Ha2. exact Ha2. }
    assert (Ed : (2 ^ Z.log2 d <= inject_Z d)%Q).
    { rewrite <- (Zpower_Qpower 2 _ Hld). now rewrite <- Zle_Qle. }
    assert (Eabs : (Qabs q == inject_Z a / inject_Z d)%Q).
    { destruct q as [n dd]. unfold a, d. cbn [Qnum Qden Qabs]. apply Qmake_Qdiv. }
    rewrite Eabs.
    assert (Hdq : (0 < inject_Z d)%Q) by (change 0%Q with (inject_Z 0); now rewrite <- Zlt_Qlt).
    apply Qlt_shift_div_r; [exact Hdq|].
    replace (Z.log2 a - Z.log2 d + 1)%Z with (Z.log2 a + 1 - Z.log2 d)%Z by lia.
    rewrite Qpower_minus by exact two_neq_0.
    pose proof (pow2_pos (Z.log2 d)) as Hp.
    pose proof (pow2_pos (Z.log2 a + 1)) as Hpa.
    apply Qlt_le_trans with (2 ^ (Z.log2 a + 1))%Q; [exact Ea|].
    apply Qle_trans with (2 ^ (Z.log2 a + 1) / 2 ^ Z.log2 d * 2 ^ Z.log2 d)%Q.
    + apply Qle_lteq. right. field. intros H0. rewrite H0 in Hp. lra.
    + apply Qmult_le_l; [|exact Ed].
      apply Qlt_shift_div_l; [exact Hp|]. lra.
  - replace (Z.log2 a - Z.log2 d - 1 + 1)%Z with (Z.log2 a - Z.log2 d)%Z by lia.
    apply Qnot_le_lt. intros H. apply Qle_bool_iff in H. congruence.
Qed.

Lemma Qfloor_unique y M : (inject_Z M <= y < inject_Z M + 1)%Q -> Qfloor y = M.
Proof.
  intros [H1 H2]. pose proof (Qfloor_le y) as Hlo. pose proof (Qlt_floor y) as Hhi.
  rewrite inject_Z_plus in Hhi. change (inject_Z 1) with 1%Q in Hhi.
  assert (Ha : (Qfloor y < M + 1)%Z).
  { rewrite Zlt_Qlt, inject_Z_plus. change (inject_Z 1) with 1%Q. lra. }
  assert (Hb : (M < Qfloor y + 1)%Z).
  { rewrite Zlt_Qlt, inject_Z_plus. change (inject_Z 1) with 1%Q. lra. }
  lia.
Qed.

(** Up to half past an even integer, [rint] gives that integer. *)
Lemma rint_half_even y M :
  (inject_Z M <= y <= inject_Z M + (1 # 2))%Q -> Z.even M = true -> rint y = M.
Proof.
  intros [H1 H2] Hev. unfold rint.
  rewrite (Qfloor_unique y M) by (split; lra). rewrite Hev.
  destruct (y - inject_Z M ?= 1 # 2)%Q eqn:E; try reflexivity.
  apply Qgt_alt in E. lra.
Qed.

(** Past [2^53] the floats are the even integers: up to [2^53 + 1] rounds
    to [2^53] at most. *)
Lemma round64_le_2p53 q :
  (0 <= q <= inject_Z (2 ^ 53) + 1)%Q -> (0 <= round64 q <= inject_Z (2 ^ 53))%Q.
Proof.
  intros [H0 H1].
  destruct (Qlt_le_dec (inject_Z (2 ^ 53 - 1)) q) as [Hbig|Hsmall].
  2:{ destruct (round64_le_int q (2 ^ 53 - 1)) as [Ha Hb]; [split; assumption|lia|].
      split; [exact Ha|]. eapply Qle_trans; [exact Hb|]. rewrite <- Zle_Qle. lia. }
  assert (Hq : ~ (q == 0)%Q).
  { intros E. rewrite E in Hbig. revert Hbig. change 0%Q with (inject_Z 0).
    rewrite <- Zlt_Qlt. lia. }
  pose proof (ilog2_le q Hq) as P1. pose proof (ilog2_lt q Hq) as P2.
  rewrite Qabs_pos in P1, P2 by exact H0.
  assert (Hhi : (ilog2 q < 54)%Z).
  { apply (Qpower_lt_compat_l_inv 2); [|reflexivity].
    apply Qle_lt_trans with q; [exact P1|].
    apply Qle_lt_trans with (inject_Z (2 ^ 53) + 1)%Q; [exact H1|].
    rewrite <- (Zpower_Qpower 2 54) by lia.
    change 1%Q with (inject_Z 1). rewrite <- inject_Z_plus, <- Zlt_Qlt. lia. }
  assert (Hlo : (51 < ilog2 q)%Z).
  { assert (H : (52 < ilog2 q + 1)%Z); [|lia].
    apply (Qpower_lt_compat_l_inv 2); [|reflexivity].
    apply Qle_lt_trans with q; [|exact P2].
    apply Qle_trans with (inject_Z (2 ^ 53 - 1)); [|now apply Qlt_le_weak].
    rewrite <- (Zpower_Qpower 2 52) by lia. rewrite <- Zle_Qle. lia. }
  unfold round64.
  destruct (Qeq_bool q 0) eqn:E;
    [split; [lra|change 0%Q with (inject_Z 0); rewrite <- Zle_Qle; lia]|].
  rewrite Qred_correct.
  assert (Hcase : ilog2 q = 52%Z \/ ilog2 q = 53%Z) by lia.
  destruct Hcase as [El|El]; rewrite El in *.
  - change (Z.max (52 - 52) (-1074)) with 0%Z. change (2 ^ 0)%Q with 1%Q.
    change (2 ^ (52 + 1))%Q with (inject_Z (2 ^ 53)) in P2.
    assert (Hy : (q / 1 <= inject_Z (2 ^ 53))%Q).
    { apply Qlt_le_weak. setoid_replace (q / 1)%Q with q by field. exact P2. }
    assert (Hy0 : (inject_Z 0 <= q / 1)%Q).
    { setoid_replace (q / 1)%Q with q by field. exact H0. }
    apply rint_le_int in Hy. apply rint_ge_int in Hy0.
    rewrite Zle_Qle in Hy, Hy0. change (inject_Z 0) with 0%Q in Hy0. split; lra.
  - change (Z.max (53 - 52) (-1074)) with 1%Z. change (2 ^ 1)%Q with 2%Q.
    change (2 ^ 53)%Q with (inject_Z (2 ^ 53)) in P1.
    rewrite (rint_half_even (q / 2) (2 ^ 52)).
    + split; [discriminate|]. apply Qle_lteq. right. reflexivity.
    + change (inject_Z (2 ^ 53)) with (2 * inject_Z (2 ^ 52))%Q in *. split.
      * apply Qle_shift_div_l; [reflexivity|]. lra.
      * apply Qle_shift_div_r; [reflexivity|]. lra.
    + reflexivity.
Qed.

Lemma fold_sum_le l : forall s n,
  Forall unit_interval l -> (0 <= n)%Z ->
  (0 <= s <= inject_Z (Z.min n (2 ^ 53)))%Q ->
  (0 <= fold_left (fun s x => round64 (s + x)) l s
   <= inject_Z (Z.min (n + Z.of_nat (length l)) (2 ^ 53)))%Q.
Proof.
  induction l as [|x l IH]; intros s n Hall Hn Hs.
  - cbn [fold_left length]. now rewrite Z.add_0_r.
  - inversion Hall as [|? ? [Hx0 Hx1] Hall']; subst. cbn [fold_left length].
    replace (n + Z.of_nat (S (length l)))%Z with (n + 1 + Z.of_nat (length l))%Z by lia.
    apply IH; [exact Hall'|lia|].
    destruct Hs as [Hs0 Hs1].
    destruct (Z_lt_le_dec (n + 1) (2 ^ 53)) as [Hlt|Hge].
    + rewrite Z.min_l in Hs1 by lia. rewrite Z.min_l by lia.
      apply round64_le_int; [|exact Hlt].
      rewrite inject_Z_plus. change (inject_Z 1) with 1%Q. split; lra.
    + rewrite Z.min_r by lia.
      apply round64_le_2p53.
      assert (Hm : (inject_Z (Z.min n (2 ^ 53)) <= inject_Z (2 ^ 53))%Q)
        by (rewrite <- Zle_Qle; lia).
      split; lra.
Qed.

Lemma fsum_le q l :
  Forall unit_interval (q :: l) ->
  (0 <= fsum (q :: l) <= inject_Z (Z.of_nat (length (q :: l))))%Q.
Proof.
  intros Hall. inversion Hall as [|? ? [Hq0 Hq1] Hall']; subst.
  destruct (fold_sum_le l q 1 Hall') as [H0 H1]; [lia| |].
  - rewrite Z.min_l by lia. change (inject_Z 1) with 1%Q. split; assumption.
  - split; [exact H0|]. eapply Qle_trans; [exact H1|].
    rewrite <- Zle_Qle. cbn [length]. lia.
Qed.




Lemma length_pos_Q {A : Type} (x : A) l : (0 < inject_Z (Z.of_nat (length (x :: l))))%Q.
Proof.
  change 0%Q with (inject_Z 0). rewrite <- Zlt_Qlt. cbn [length]. lia.
Qed.

(** The float64 mean of cells in [0, 1]: in [0, 1], and near the exact mean. *)
Lemma mean_unit_interval q l :
  Forall unit_interval (q :: l) ->
  let k := inject_Z (Z.of_nat (length (q :: l))) in
  (0 <= round64 (fsum (q :: l) / k) <= 1)%Q.
Proof.
  intros Hall k. pose proof (fsum_le q l Hall) as [H0 H1].
  pose proof (length_pos_Q q l) as Hk. fold k in H1, Hk.
  apply (round64_le_int _ 1); [|reflexivity]. change (inject_Z 1) with 1%Q. split.
  - apply Qle_shift_div_l; [exact Hk|]. lra.
  - apply Qle_shift_div_r; [exact Hk|]. lra.
Qed.


(** [numpy.round(x, 2)] on [0, 1]: the float written with two decimals that
    is nearest the value, but for the rounding of the product by 100. *)
Lemma round2_error q :
  (0 <= q <= 1)%Q ->
  exists n : Z,
    round2 (Fin q) = f64 (inject_Z n / 100) /\ (0 <= n <= 100)%Z /\
    (- ((1 # 200) + (1 # 7036874417766400)) <= inject_Z n / 100 - q
     <= (1 # 200) + (1 # 7036874417766400))%Q.
Proof.
  intros [H0 H1]. exists (rint (round64 (q * 100))). split; [reflexivity|].
  destruct (round64_le_int (q * 100) 100) as [Y0 Y1]; [|reflexivity|].
  { change (inject_Z 100) with 100%Q. split; lra. }
  destruct (round64_error (q * 100) 7) as [R1 R2]; [|lia|].
  { rewrite Qabs_pos by lra. change (2 ^ 7)%Q with 128%Q. lra. }
  change (2 ^ (7 - 53))%Q with (2 ^ (-46))%Q in R1, R2.
  set (y := round64 (q * 100)) in *.
  pose proof (rint_close y) as [C1 C2].
  split.
  - split; [apply rint_ge_int|apply rint_le_int]; assumption.
  - change (2 ^ (-46))%Q with (1 # 70368744177664)%Q in *.
    split.
    + setoid_replace (inject_Z (rint y) / 100 - q)%Q
        with ((inject_Z (rint y) - q * 100) / 100)%Q by field.
      apply Qle_shift_div_l; [reflexivity|]. lra.
    + setoid_replace (inject_Z (rint y) / 100 - q)%Q
        with ((inject_Z (rint y) - q * 100) / 100)%Q by field.
      apply Qle_shift_div_r; [reflexivity|]. lra.
Qed.

(** ** The two sorts meet the contract *)

Lemma fge_trans x y z : fge x y = true -> fge y z = true -> fge x z = true.
Proof.
  destruct x as [x|], y as [y|], z as [z|]; simpl; try congruence; auto.
  rewrite !Qle_bool_iff. intros. eapply Qle_trans; eauto.
Qed.

Ltac fge_facts :=
  repeat match goal with
  | H1 : fge ?a ?b = true, H2 : fge ?b ?c = true |- _ =>
      lazymatch goal with
      | _ : fge a c = true |- _ => fail
      | _ => pose proof (fge_trans a b c H1 H2)
      end
  end.

Ltac lex_trans :=
  simpl;
  repeat match goal with
  | |- context [fge ?a ?b] => destruct (fge a b) eqn:?
  end; simpl; intros; fge_facts; try congruence;
  repeat match goal with
  | H : Nat.leb _ _ = true |- _ => apply Nat.leb_le in H
  end; try (apply Nat.leb_le; lia).

Lemma fge_total x y : fge x y = true \/ fge y x = true.
Proof.
  destruct x as [x|], y as [y|]; simpl; auto.
  destruct (Qle_bool y x) eqn:E; auto. right.
  apply Qle_bool_iff. apply Qlt_le_weak. apply Qnot_le_lt.
  intro H. apply Qle_bool_iff in H. congruence.
Qed.

Lemma stable_leb_total a b : stable_leb a b = true \/ stable_leb b a = true.
Proof.
  destruct a as [i x], b as [j y]. unfold stable_leb, feqb. simpl.
  destruct (fge_total x y) as [H|H]; rewrite H; simpl.
  - destruct (fge y x); simpl; auto.
    destruct (Nat.leb i j) eqn:E; auto. right.
    apply Nat.leb_le. apply Nat.leb_gt in E. lia.
  - destruct (fge x y); simpl; auto.
    destruct (Nat.leb i j) eqn:E; auto. right.
    apply Nat.leb_le. apply Nat.leb_gt in E. lia.
Qed.

Lemma stable_leb_trans a b c :
  stable_leb a b = true -> stable_leb b c = true -> stable_leb a c = true.
Proof.
  destruct a as [i x], b as [j y], c as [k z]. unfold stable_leb, feqb. lex_trans.
Qed.

Lemma stable_leb_fge a b : stable_leb a b = true -> fge (snd a) (snd b) = true.
Proof.
  unfold stable_leb, feqb. destruct (fge (snd a) (snd b)); simpl; auto.
Qed.

Section InsertionSort.

Variable A : Type.
Variable leb : A -> A -> bool.
Hypothesis leb_total : forall a b, leb a b = true \/ leb b a = true.
Hypothesis leb_trans : forall a b c, leb a b = true -> leb b c = true -> leb a c = true.

Lemma insert_perm x l : Permutation (x :: l) (insert leb x l).
Proof.
  induction l as [|y l IH]; simpl; [apply Permutation_refl|].
  destruct (leb x y); [apply Permutation_refl|].
  eapply Permutation_trans; [apply perm_swap|]. now apply perm_skip.
Qed.

Lemma isort_perm l : Permutation l (isort leb l).
Proof.
  induction l as [|x l IH]; simpl; [constructor|].
  eapply Permutation_trans; [|apply insert_perm]. now apply perm_skip.
Qed.

Lemma insert_sorted x l :
  StronglySorted (fun a b => leb a b = true) l ->
  StronglySorted (fun a b => leb a b = true) (insert leb x l).
Proof.
  induction 1 as [|y l Hs IH Hall]; simpl; [repeat constructor|].
  destruct (leb x y) eqn:E.
  - constructor; [now constructor|]. constructor; [exact E|].
    eapply Forall_impl; [|exact Hall]. intros b Hb. eapply leb_trans; eauto.
  - constructor; [exact IH|].
    assert (Hyx : leb y x = true) by (destruct (leb_total x y); congruence).
    eapply Permutation_Forall; [apply insert_perm|]. constructor; auto.
Qed.

Lemma isort_sorted l : StronglySorted (fun a b => leb a b = true) (isort leb l).
Proof.
  induction l as [|x l IH]; simpl; [constructor|]. now apply insert_sorted.
Qed.

End InsertionSort.

Lemma enumerate_from_nth s (keys : list float) p :
  In p (combine (seq s (length keys)) keys) ->
  s <= fst p /\ nth_error keys (fst p - s) = Some (snd p).
Proof.
  revert s; induction keys as [|k keys IH]; simpl; intros s H; [tauto|].
  destruct H as [<-|H]; simpl.
  - rewrite Nat.sub_diag. auto.
  - apply IH in H as [H1 H2]. split; [lia|].
    replace (fst p - s) with (S (fst p - S s)) by lia. exact H2.
Qed.

Lemma map_fst_combine_seq s (keys : list float) :
  map fst (combine (seq s (length keys)) keys) = seq s (length keys).
Proof.
  revert s; induction keys as [|k keys IH]; simpl; intros s; [reflexivity|].
  now rewrite IH.
Qed.

Lemma take_map_fst (keys : list float) (l : list (nat * float)) :
  (forall p, In p l -> nth_error keys (fst p) = Some (snd p)) ->
  take keys (map fst l) = map snd l.
Proof.
  induction l as [|p l IH]; simpl; intros H; [reflexivity|].
  rewrite (H p) by auto. simpl. f_equal. apply IH. auto.
Qed.

Lemma StronglySorted_map_snd (leb : nat * float -> nat * float -> bool) l :
  (forall a b, leb a b = true -> fge (snd a) (snd b) = true) ->
  StronglySorted (fun a b => leb a b = true) l ->
  StronglySorted (fun a b => fge a b = true) (map snd l).
Proof.
  intros Hleb. induction 1 as [|a l Hs IH Hall]; simpl; constructor; auto.
  apply Forall_map. eapply Forall_impl; [|exact Hall]. intros b. apply Hleb.
Qed.

Lemma argsort_of_sort (sort : list (nat * float) -> list (nat * float))
    (leb : nat * float -> nat * float -> bool) :
  (forall l, Permutation l (sort l)) ->
  (forall l, StronglySorted (fun a b => leb a b = true) (sort l)) ->
  (forall a b, leb a b = true -> fge (snd a) (snd b) = true) ->
  argsort_contract (fun keys => map fst (sort (enumerate keys))).
Proof.
  intros Hperm Hsorted Hleb keys. split.
  - rewrite <- (map_fst_combine_seq 0 keys).
    apply Permutation_map, Permutation_sym, Hperm.
  - rewrite take_map_fst.
    + eapply StronglySorted_map_snd; eauto.
    + intros p Hp. eapply Permutation_in in Hp; [|apply Permutation_sym, Hperm].
      apply enumerate_from_nth in Hp as [_ Hp]. now rewrite Nat.sub_0_r in Hp.
Qed.

Lemma stable_argsort_contract : argsort_contract stable_argsort.
Proof.
  apply (argsort_of_sort (isort stable_leb) stable_leb).
  - apply isort_perm.
  - apply isort_sorted; [apply stable_leb_total|apply stable_leb_trans].
  - apply stable_leb_fge.
Qed.

(** ** Labels, membership and lookups *)

Lemma mem_In x l : mem x l = true <-> In x l.
Proof.
  unfold mem. rewrite existsb_exists. split.
  - intros [y [Hy E]]. apply String.eqb_eq in E. now subst.
  - intros H. exists x. split; auto. apply String.eqb_refl.
Qed.

Lemma mem_not_In x l : mem x l = false <-> ~ In x l.
Proof.
  rewrite <- mem_In. destruct (mem x l); split; congruence.
Qed.

Lemma nodupb_NoDup l : nodupb l = true <-> NoDup l.
Proof.
  induction l as [|x l IH]; simpl.
  - split; auto using NoDup_nil.
  - rewrite andb_true_iff, negb_true_iff, mem_not_In, IH. split.
    + intros [H1 H2]. now constructor.
    + intros H. inversion H; auto.
Qed.

Lemma list_eqb_eq a b : list_eqb a b = true <-> a = b.
Proof.
  revert b; induction a as [|x a IH]; intros [|y b]; simpl; try (split; congruence).
  rewrite andb_true_iff, String.eqb_eq, IH. split.
  - intros [-> ->]; reflexivity.
  - intros H; inversion H; auto.
Qed.

Lemma find_in_nodup {A : Type} (rws : list (string * A)) L x :
  NoDup (map fst rws) -> In (L, x) rws ->
  find (fun r => String.eqb (fst r) L) rws = Some (L, x).
Proof.
  induction rws as [|[L' x'] rws IH]; simpl; intros Hnd Hin; [tauto|].
  inversion Hnd as [|? ? Hnotin Hnd']; subst.
  destruct Hin as [E|Hin].
  - inversion E; subst. now rewrite String.eqb_refl.
  - destruct (String.eqb_spec L' L) as [->|_]; auto.
    exfalso. apply Hnotin. apply (in_map fst) in Hin. exact Hin.
Qed.

Lemma find_not_in {A : Type} (rws : list (string * A)) L :
  ~ In L (map fst rws) -> find (fun r => String.eqb (fst r) L) rws = None.
Proof.
  induction rws as [|[L' x'] rws IH]; simpl; intros Hnotin; [reflexivity|].
  destruct (String.eqb_spec L' L) as [->|_]; [tauto|]. apply IH. tauto.
Qed.

Lemma row_of_in (r : DataFrame float) L x :
  NoDup (index r) -> In (L, x) (rows r) -> row_of r L = x.
Proof.
  intros Hnd Hin. unfold row_of. now rewrite (find_in_nodup _ L x Hnd Hin).
Qed.

Lemma row_of_rows (r : DataFrame float) :
  NoDup (index r) -> map (fun L => (L, row_of r L)) (index r) = rows r.
Proof.
  intros Hnd. unfold index. rewrite map_map.
  rewrite <- (map_id (rows r)) at 2. apply map_ext_in.
  intros [L x] Hin. simpl. f_equal. now apply row_of_in.
Qed.

(** ** [pd.concat(reports, axis=1)] joins the reports by label *)

Lemma hcat_map {A : Type} (g h : string -> list A) idx :
  hcat (map (fun L => (L, g L)) idx) (map (fun L => (L, h L)) idx)
  = map (fun L => (L, g L ++ h L)) idx.
Proof.
  induction idx as [|L idx IH]; simpl; [reflexivity|]. now rewrite IH.
Qed.

Lemma fold_hcat (pre rest : list (DataFrame float)) idx :
  (forall r, In r rest -> index r = idx) -> NoDup idx ->
  fold_left (fun acc r => hcat acc (rows r)) rest
    (map (fun L => (L, concat (map (fun r => row_of r L) pre))) idx)
  = map (fun L => (L, concat (map (fun r => row_of r L) (pre ++ rest)))) idx.
Proof.
  revert pre; induction rest as [|r rest IH]; simpl; intros pre Hidx Hnd.
  - now rewrite app_nil_r.
  - assert (Hr : index r = idx) by auto.
    rewrite <- (row_of_rows r) by (rewrite Hr; exact Hnd).
    rewrite Hr, hcat_map.
    replace (pre ++ r :: rest) with ((pre ++ [r]) ++ rest) by now rewrite <- app_assoc.
    rewrite <- IH by auto. f_equal. apply map_ext. intros L.
    now rewrite map_app, concat_app; simpl; rewrite app_nil_r.
Qed.

Lemma unique_seen seen l : (forall x, In x l -> In x seen) -> unique seen l = [].
Proof.
  induction l as [|x l IH]; simpl; intros H; [reflexivity|].
  replace (mem x seen) with true by (symmetry; apply mem_In; auto). auto.
Qed.

Lemma unique_nodup seen l rest :
  NoDup l -> (forall x, In x l -> ~ In x seen) ->
  (forall x, In x rest -> In x l \/ In x seen) ->
  unique seen (l ++ rest) = l.
Proof.
  revert seen; induction l as [|x l IH]; simpl; intros seen Hnd Hl Hrest.
  - apply unique_seen. intros x Hx. destruct (Hrest x Hx); tauto.
  - inversion Hnd; subst.
    replace (mem x seen) with false by (symmetry; apply mem_not_In; auto).
    f_equal. apply IH; auto.
    + intros y Hy [->|Hs]; [tauto|]. now apply (Hl y); auto.
    + intros y Hy. destruct (Hrest y Hy) as [[->|H]|H]; simpl; auto.
Qed.

Lemma unique_In seen l x : In x (unique seen l) <-> In x l /\ ~ In x seen.
Proof.
  revert seen; induction l as [|y l IH]; simpl; intros seen; [tauto|].
  destruct (mem y seen) eqn:E.
  - apply mem_In in E. rewrite IH. split; [tauto|].
    intros [[->|H] Hs]; tauto.
  - apply mem_not_In in E. simpl. rewrite IH; simpl. split.
    + intros [->|[H1 H2]]; [split; [now left | exact E] | split; [now right | tauto]].
    + intros [[->|H] Hs]; [now left|].
      destruct (string_dec y x) as [->|Hne]; [now left|]. right. split; [exact H | tauto].
Qed.

Lemma unique_NoDup seen l : NoDup (unique seen l).
Proof.
  revert seen; induction l as [|y l IH]; simpl; intros seen; [constructor|].
  destruct (mem y seen); auto. constructor; auto.
  rewrite unique_In. simpl. tauto.
Qed.

Lemma concat_axis1_nodup reports :
  reports <> [] -> (forall r, In r reports -> NoDup (index r)) ->
  concat_axis1 reports
  = Ok (mkDF (concat (map columns reports))
          (map (fun L => (L, joined_row reports L)) (joined_index reports))).
Proof.
  destruct reports as [|r0 rest]; [congruence|]. intros _ Hnd.
  unfold concat_axis1, joined_index, joined_row.
  destruct (forallb (fun r => list_eqb (index r) (index r0)) rest) eqn:E.
  - rewrite forallb_forall in E.
    assert (Hidx : forall r, In r rest -> index r = index r0).
    { intros r Hr. apply list_eqb_eq. auto. }
    f_equal. f_equal.
    change (map index (r0 :: rest)) with (index r0 :: map index rest).
    change (concat (index r0 :: map index rest)) with (index r0 ++ concat (map index rest)).
    rewrite unique_nodup; auto using in_eq.
    + rewrite <- (row_of_rows r0) at 1 by auto using in_eq.
      replace (map (fun L => (L, row_of r0 L)) (index r0))
        with (map (fun L => (L, concat (map (fun r => row_of r L) [r0]))) (index r0))
        by (apply map_ext; intros; simpl; now rewrite app_nil_r).
      rewrite fold_hcat; auto using in_eq.
    + intros x Hx. apply in_concat in Hx as [l [Hl Hx]].
      apply in_map_iff in Hl as [r [<- Hr]]. left. now rewrite <- (Hidx r Hr).
  - replace (forallb (fun r => nodupb (index r)) (r0 :: rest)) with true; [reflexivity|].
    symmetry. apply forallb_forall. intros r Hr. apply nodupb_NoDup. auto.
Qed.

Lemma joined_index_In reports L :
  In L (joined_index reports) <-> exists r, In r reports /\ In L (index r).
Proof.
  unfold joined_index. rewrite unique_In, in_concat. split.
  - intros [[l [Hl HL]] _]. apply in_map_iff in Hl as [r [<- Hr]]. eauto.
  - intros [r [Hr HL]]. split; [|tauto]. exists (index r). split; auto. now apply in_map.
Qed.

Lemma joined_index_same r0 rest :
  NoDup (index r0) ->
  (forall r L, In r rest -> In L (index r) -> In L (index r0)) ->
  joined_index (r0 :: rest) = index r0.
Proof.
  intros Hnd Hsame. unfold joined_index. simpl. apply unique_nodup; auto.
  intros x Hx. apply in_concat in Hx as [l [Hl Hx]].
  apply in_map_iff in Hl as [r [<- Hr]]. left. eauto.
Qed.

(** ** Selection and assignment by column label *)

Lemma select_app {A : Type} name c1 c2 (x1 x2 : list A) :
  length x1 = length c1 ->
  select name (c1 ++ c2) (x1 ++ x2) = select name c1 x1 ++ select name c2 x2.
Proof.
  unfold select. revert x1; induction c1 as [|c c1 IH]; intros [|x x1]; simpl;
    try discriminate; intros H; [reflexivity|].
  injection H as H. specialize (IH x1 H).
  destruct (String.eqb c name); simpl; now rewrite IH.
Qed.

Lemma count_app name c1 c2 : count name (c1 ++ c2) = count name c1 + count name c2.
Proof.
  unfold count. now rewrite filter_app, length_app.
Qed.

Lemma select_length {A : Type} name cols (row : list A) :
  length row = length cols -> length (select name cols row) = count name cols.
Proof.
  unfold select, count. revert row; induction cols as [|c cols IH]; intros [|x row]; simpl;
    try discriminate; intros H; [reflexivity|].
  injection H as H. specialize (IH row H). rewrite (String.eqb_sym name c).
  destruct (String.eqb c name); simpl; now rewrite IH.
Qed.

Lemma count_mem name cols : 1 <= count name cols -> mem name cols = true.
Proof.
  unfold count, mem. induction cols as [|c cols IH]; simpl; [lia|].
  destruct (String.eqb name c); simpl; auto.
Qed.

Lemma select_set_cells_other n m v cols row :
  n <> m -> select n cols (set_cells m v cols row) = select n cols row.
Proof.
  intros Hne. unfold select, set_cells.
  revert row; induction cols as [|c cols IH]; intros [|x row]; simpl; try reflexivity.
  destruct (String.eqb_spec c n) as [->|Hc]; simpl.
  - destruct (String.eqb_spec n m) as [->|_]; [congruence|]. now rewrite IH.
  - apply IH.
Qed.

Lemma singleton_hd {A : Type} (d : A) l : length l = 1 -> l = [hd d l].
Proof.
  destruct l as [|x [|y l]]; simpl; intros H; try discriminate; reflexivity.
Qed.

Lemma getitem_frame df name :
  2 <= count name (columns df) ->
  getitem df name = Ok (Frame (map (fun r => select name (columns df) (snd r)) (rows df))).
Proof.
  unfold getitem. destruct (count name (columns df)) as [|[|n]]; intros H; try lia. reflexivity.
Qed.

Lemma getitem_series df name :
  count name (columns df) = 1 ->
  exists v, getitem df name = Ok (Series v).
Proof.
  unfold getitem. intros ->. eauto.
Qed.

Lemma setitem_agg red df name :
  1 <= count name (columns df) ->
  setitem df name (map red (map (fun r => select name (columns df) (snd r)) (rows df)))
  = agg_frame red name df.
Proof.
  intros H. unfold setitem, agg_frame. rewrite (count_mem _ _ H). f_equal.
  rewrite map_map. induction (rows df) as [|r l IH]; simpl; [reflexivity|].
  now rewrite IH.
Qed.

Lemma aggregate_frames reports df :
  concat_axis1 reports = Ok df ->
  (forall name, In name report_columns -> 2 <= count name (columns df)) ->
  aggregate reports = Ok (aggregated df).
Proof.
  intros Hc Hcount. unfold aggregate, aggregated. rewrite Hc. simpl.
  assert (Hs : 2 <= count "support" (columns df)) by (apply Hcount; simpl; auto).
  assert (Hp : 2 <= count "precision" (columns df)) by (apply Hcount; simpl; auto).
  assert (Hr : 2 <= count "recall" (columns df)) by (apply Hcount; simpl; auto).
  assert (Hf : 2 <= count "f1-score" (columns df)) by (apply Hcount; simpl; auto).
  rewrite getitem_frame by exact Hs. cbn [bind sum_axis1].
  rewrite setitem_agg by lia.
  rewrite getitem_frame by exact Hp. cbn [bind mean_axis1].
  rewrite setitem_agg by (cbn [agg_frame columns]; lia).
  rewrite getitem_frame by exact Hr. cbn [bind mean_axis1].
  rewrite setitem_agg by (cbn [agg_frame columns]; lia).
  rewrite getitem_frame by exact Hf. cbn [bind mean_axis1].
  rewrite setitem_agg by (cbn [agg_frame columns]; lia).
  reflexivity.
Qed.

(** With a single report [df['support']] is a Series and line 33 raises. *)
Lemma aggregate_series reports df :
  concat_axis1 reports = Ok df -> count "support" (columns df) = 1 ->
  aggregate reports = Err no_axis_1.
Proof.
  intros Hc Hcount. unfold aggregate. rewrite Hc. simpl.
  destruct (getitem_series df "support" Hcount) as [v ->]. reflexivity.
Qed.

Lemma index_aggregated df : index (aggregated df) = index df.
Proof.
  unfold aggregated, first4, agg_frame, index. simpl. rewrite !map_map. reflexivity.
Qed.

Lemma columns_aggregated df : columns (aggregated df) = firstn 4 (columns df).
Proof. reflexivity. Qed.

(** ** The aggregated rows of well-formed reports *)

Lemma row_of_length r L : well_formed r -> length (row_of r L) = length (columns r).
Proof.
  intros [_ Hlen]. unfold row_of.
  destruct (find (fun x => String.eqb (fst x) L) (rows r)) as [x|] eqn:E.
  - apply find_some in E as [Hin _]. rewrite Forall_forall in Hlen. auto.
  - apply repeat_length.
Qed.

Lemma select_joined reports name L :
  (forall r, In r reports -> count name (columns r) = 1 /\ well_formed r) ->
  select name (concat (map columns reports)) (joined_row reports L) = col reports L name.
Proof.
  unfold joined_row, col. induction reports as [|r reports IH]; simpl; intros H; [reflexivity|].
  destruct (H r (or_introl eq_refl)) as [Hc Hwf].
  rewrite select_app by now apply row_of_length.
  rewrite IH by auto. unfold cell_of.
  pose proof (select_length name (columns r) (row_of r L) (row_of_length r L Hwf)) as Hlen.
  rewrite Hc in Hlen.
  destruct (select name (columns r) (row_of r L)) as [|x [|y l]]; try discriminate.
  reflexivity.
Qed.

Lemma aggregated_rows r0 rest L :
  columns r0 = report_columns ->
  (forall r, In r (r0 :: rest) -> has_columns r /\ well_formed r) ->
  let cols := concat (map columns (r0 :: rest)) in
  firstn 4 (agg_step nanmean "f1-score" cols (agg_step nanmean "recall" cols
             (agg_step nanmean "precision" cols (agg_step nansum "support" cols
                (joined_row (r0 :: rest) L)))))
  = aggregated_row (r0 :: rest) L.
Proof.
  intros Hcols Hall cols. unfold agg_step.
  rewrite !select_set_cells_other by discriminate.
  assert (Hsel : forall name, In name report_columns ->
            select name cols (joined_row (r0 :: rest) L) = col (r0 :: rest) L name).
  { intros name Hname. apply select_joined. intros r Hr.
    destruct (Hall r Hr) as [Hc Hwf]. split; auto. }
  rewrite !Hsel by (simpl; auto). unfold aggregated_row.
  generalize (nanmean (col (r0 :: rest) L "precision")) as vp.
  generalize (nanmean (col (r0 :: rest) L "recall")) as vr.
  generalize (nanmean (col (r0 :: rest) L "f1-score")) as vf.
  generalize (nansum (col (r0 :: rest) L "support")) as vs.
  intros vs vf vr vp.
  assert (Hlen : length (row_of r0 L) = 4).
  { rewrite row_of_length by (apply Hall; simpl; auto). now rewrite Hcols. }
  subst cols. unfold joined_row. cbn [map concat]. rewrite Hcols.
  destruct (row_of r0 L) as [|a [|b [|c [|d [|e l]]]]]; try discriminate.
  reflexivity.
Qed.

(** ** Frames tabulated from their labels *)

Lemma index_tab {A : Type} cols (g : string -> list A) idx : index (tab cols g idx) = idx.
Proof.
  unfold index, tab. simpl. rewrite map_map. apply map_id.
Qed.

Lemma filter_tab {A : Type} (g : string -> list A) (p : string -> bool) idx :
  filter (fun r => p (fst r)) (map (fun L => (L, g L)) idx)
  = map (fun L => (L, g L)) (filter p idx).
Proof.
  induction idx as [|L idx IH]; simpl; [reflexivity|].
  destruct (p L); simpl; now rewrite IH.
Qed.

Lemma without_absent labels idx :
  (forall L, In L labels -> ~ In L idx) -> without labels idx = idx.
Proof.
  intros H. unfold without. induction idx as [|x idx IH]; simpl; [reflexivity|].
  replace (mem x labels) with false.
  - simpl. f_equal. apply IH. intros L HL Hin. apply (H L HL). now right.
  - symmetry. apply mem_not_In. intros Hx. apply (H x Hx). now left.
Qed.

Lemma without_In labels idx L : In L (without labels idx) <-> In L idx /\ ~ In L labels.
Proof.
  unfold without. rewrite filter_In, negb_true_iff, mem_not_In. tauto.
Qed.

Lemma without_NoDup labels idx : NoDup idx -> NoDup (without labels idx).
Proof.
  apply NoDup_filter.
Qed.

Lemma missing_labels_tab {A : Type} cols (g : string -> list A) idx labels :
  missing_labels (tab cols g idx) labels = filter (fun L => negb (mem L idx)) labels.
Proof.
  unfold missing_labels. now rewrite index_tab.
Qed.

Lemma filter_none {A : Type} (p : A -> bool) l :
  (forall x, In x l -> p x = false) -> filter p l = [].
Proof.
  induction l as [|x l IH]; simpl; intros H; [reflexivity|].
  rewrite (H x) by auto. auto.
Qed.

Lemma drop_tab {A : Type} cols (g : string -> list A) idx labels :
  (forall L, In L labels -> In L idx) ->
  drop (tab cols g idx) labels = Ok (tab cols g (without labels idx)).
Proof.
  intros H. unfold drop. rewrite missing_labels_tab, filter_none.
  - unfold tab; simpl. now rewrite (filter_tab g (fun L => negb (mem L labels))).
  - intros L HL. apply negb_false_iff, mem_In. auto.
Qed.

Lemma drop_tab_missing {A : Type} cols (g : string -> list A) idx labels L :
  In L labels -> ~ In L idx ->
  exists missing,
    drop (tab cols g idx) labels = Err (KeyError missing) /\
    forall x, In x missing <-> In x labels /\ ~ In x idx.
Proof.
  intros HL Hidx. unfold drop. rewrite missing_labels_tab.
  assert (Hin : forall x, In x (filter (fun L => negb (mem L idx)) labels)
                          <-> In x labels /\ ~ In x idx).
  { intros x. rewrite filter_In, negb_true_iff, mem_not_In. tauto. }
  destruct (filter (fun L => negb (mem L idx)) labels) as [|m ms] eqn:E.
  - exfalso. apply (Hin L). auto.
  - eauto.
Qed.

Lemma drop_if_present_tab cols (g : string -> list float) idx L :
  drop_if_present (tab cols g idx) L = Ok (tab cols g (without [L] idx)).
Proof.
  unfold drop_if_present. rewrite index_tab. destruct (mem L idx) eqn:E.
  - apply drop_tab. intros x [<-|[]]. now apply mem_In.
  - rewrite without_absent; [reflexivity|].
    intros x [<-|[]]. now apply mem_not_In.
Qed.

Lemma filter_label_nodup {A : Type} (g : string -> list A) idx L :
  NoDup idx -> In L idx ->
  filter (fun r => String.eqb (fst r) L) (map (fun L => (L, g L)) idx) = [(L, g L)].
Proof.
  intros Hnd Hin. rewrite (filter_tab g (fun x => String.eqb x L)).
  induction Hnd as [|x idx Hx Hnd IH]; simpl in *; [tauto|].
  destruct (String.eqb_spec x L) as [->|Hne].
  - simpl. f_equal. rewrite filter_none; [reflexivity|].
    intros y Hy. apply String.eqb_neq. intros ->. tauto.
  - apply IH. tauto.
Qed.

Lemma loc_tab {A : Type} cols (g : string -> list A) idx labels :
  NoDup idx -> (forall L, In L labels -> In L idx) ->
  loc (tab cols g idx) labels = Ok (tab cols g labels).
Proof.
  intros Hnd H. unfold loc. rewrite missing_labels_tab, filter_none.
  - unfold tab; simpl. f_equal. f_equal.
    induction labels as [|L labels IH]; simpl; [reflexivity|].
    rewrite filter_label_nodup by auto using in_eq. simpl. f_equal.
    apply IH. intros; apply H; now right.
  - intros L HL. apply negb_false_iff, mem_In. auto.
Qed.

Lemma concat_axis0_tab {A : Type} cols (g : string -> list A) idx1 idx2 :
  concat_axis0 (tab cols g idx1) (tab cols g idx2) = tab cols g (idx1 ++ idx2).
Proof.
  unfold concat_axis0, tab. simpl. now rewrite map_app.
Qed.

Lemma take_map {A B : Type} (f : A -> B) l idx : take (map f l) idx = map f (take l idx).
Proof.
  unfold take. induction idx as [|i idx IH]; simpl; [reflexivity|].
  rewrite map_app, <- IH. f_equal. rewrite nth_error_map.
  destruct (nth_error l i); reflexivity.
Qed.

Lemma round_first3_tab cols (g : string -> list float) idx :
  NoDup cols ->
  round_first3 (tab cols g idx)
  = Ok (tab cols (fun L => map round2 (firstn 3 (g L)) ++ skipn 3 (g L)) idx).
Proof.
  intros Hnd. unfold round_first3. simpl.
  replace (nodupb cols) with true by (symmetry; now apply nodupb_NoDup).
  unfold tab. now rewrite map_map.
Qed.

Lemma mapM_ok {A B : Type} (f : A -> result B) (g : A -> B) l :
  (forall x, In x l -> f x = Ok (g x)) -> mapM f l = Ok (map g l).
Proof.
  induction l as [|x l IH]; simpl; intros H; [reflexivity|].
  rewrite (H x) by auto. simpl. rewrite IH by auto. reflexivity.
Qed.

(** ** The final frame of well-formed reports *)

Lemma count_concat name (reports : list (DataFrame float)) :
  (forall r, In r reports -> count name (columns r) = 1) ->
  count name (concat (map columns reports)) = length reports.
Proof.
  induction reports as [|r reports IH]; simpl; intros H; [reflexivity|].
  rewrite count_app, (H r) by auto. simpl. f_equal. auto.
Qed.

Lemma aggregated_tab cols (g : string -> list float) idx :
  aggregated (tab cols g idx) = tab (firstn 4 cols) (fun L => agg_row cols (g L)) idx.
Proof.
  unfold aggregated, first4, agg_frame, tab, agg_row. cbn [columns rows].
  f_equal. rewrite !map_map. reflexivity.
Qed.

Lemma aggregate_tab (reports : list (DataFrame float)) :
  2 <= length reports ->
  (forall r, In r reports -> has_columns r /\ NoDup (index r)) ->
  aggregate reports
  = Ok (tab (firstn 4 (concat (map columns reports)))
          (fun L => agg_row (concat (map columns reports)) (joined_row reports L))
          (joined_index reports)).
Proof.
  intros Hlen Hall.
  erewrite aggregate_frames.
  - f_equal. apply (aggregated_tab _ (joined_row reports)).
  - apply concat_axis1_nodup.
    + intros ->. simpl in Hlen. lia.
    + intros r Hr. now apply Hall.
  - intros name Hname. cbn [columns tab]. rewrite count_concat; [exact Hlen|].
    intros r Hr. now apply Hall.
Qed.

Section Averaged.

Variable argsort_desc : list float -> list nat.

Lemma sort_values_tab cols (g : string -> list float) idx :
  count "support" cols = 1 ->
  sort_values_desc argsort_desc (tab cols g idx) "support"
  = Ok (tab cols g
          (take idx (argsort_desc (map (fun L => hd NaN (select "support" cols (g L))) idx)))).
Proof.
  intros Hc. unfold sort_values_desc. cbn [tab columns rows]. rewrite Hc.
  f_equal. unfold tab. f_equal. rewrite map_map. cbn [snd]. apply take_map.
Qed.

Lemma astype_tab (g : string -> list float) (h : string -> list cell) idx :
  (forall L, mapM cast_cell (combine report_columns (g L)) = Ok (h L)) ->
  astype_int_support (tab report_columns g idx) = Ok (tab report_columns h idx).
Proof.
  intros H. unfold astype_int_support. cbn [tab columns rows mem existsb].
  replace (mem "support" report_columns) with true by reflexivity.
  rewrite (mapM_ok _ (fun r => (fst r, h (fst r)))).
  - simpl. unfold tab. now rewrite map_map.
  - intros [L x] Hin. apply in_map_iff in Hin as [L' [E _]]. inversion E; subst.
    cbn [fst snd]. now rewrite H.
Qed.

Lemma report_final_tab r0 r1 rest :
  let reports := r0 :: r1 :: rest in
  columns r0 = report_columns ->
  (forall r, In r reports -> has_columns r /\ well_formed r) ->
  (forall r L, In r (r1 :: rest) -> In L (index r) -> In L (index r0)) ->
  In "macro avg" (index r0) -> In "weighted avg" (index r0) ->
  report_final argsort_desc reports
  = Ok (tab report_columns (final_row reports) (row_order argsort_desc reports (index r0))).
Proof.
  intros reports Hcols Hall Hsame Hmacro Hweighted.
  assert (Hnd : NoDup (index r0)) by (apply Hall; simpl; auto).
  unfold report_final. rewrite aggregate_tab.
  2:{ simpl. lia. }
  2:{ intros r Hr. destruct (Hall r Hr) as [H1 [H2 _]]. auto. }
  subst reports. rewrite joined_index_same by assumption.
  replace (firstn 4 (concat (map columns (r0 :: r1 :: rest)))) with report_columns
    by (cbn [map concat]; rewrite Hcols; reflexivity).
  cbn [bind]. rewrite drop_if_present_tab. cbn [bind].
  rewrite drop_if_present_tab. cbn [bind].
  unfold reassemble. rewrite drop_tab.
  2:{ intros L HL. rewrite !without_In. simpl in HL.
      destruct HL as [<-|[<-|[]]]; simpl; repeat split; auto;
        intros [E|[]]; discriminate E. }
  cbn [bind]. rewrite sort_values_tab by reflexivity. cbn [bind].
  rewrite loc_tab.
  2:{ now apply without_NoDup, without_NoDup. }
  2:{ intros L HL. rewrite !without_In. simpl in HL.
      destruct HL as [<-|[<-|[]]]; simpl; repeat split; auto;
        intros [E|[]]; discriminate E. }
  cbn [bind]. rewrite concat_axis0_tab.
  rewrite round_first3_tab by (apply nodupb_NoDup; reflexivity). cbn [bind].
  erewrite astype_tab.
  - f_equal. unfold row_order, sorted_classes, class_labels. f_equal. f_equal. f_equal. f_equal.
    apply map_ext. intros L. unfold agg_row. rewrite aggregated_rows by assumption. reflexivity.
  - intros L. unfold agg_row. rewrite aggregated_rows by assumption. reflexivity.
Qed.

End Averaged.

(** ** Dictionaries and the two output forms *)

Lemma dict_set_fresh {V : Type} k (v : V) d :
  ~ In k (map fst d) -> dict_set k v d = d ++ [(k, v)].
Proof.
  induction d as [|[k' v'] d IH]; simpl; intros H; [reflexivity|].
  destruct (String.eqb_spec k' k) as [->|_]; [tauto|]. f_equal. apply IH. tauto.
Qed.

Lemma py_dict_acc {V : Type} (l acc : list (string * V)) :
  NoDup (map fst (acc ++ l)) ->
  fold_left (fun d kv => dict_set (fst kv) (snd kv) d) l acc = acc ++ l.
Proof.
  revert acc; induction l as [|[k v] l IH]; simpl; intros acc Hnd.
  - now rewrite app_nil_r.
  - rewrite dict_set_fresh.
    + rewrite IH; rewrite <- app_assoc; [reflexivity|exact Hnd].
    + rewrite map_app in Hnd. simpl in Hnd. apply NoDup_remove_2 in Hnd.
      intros H. apply Hnd. apply in_or_app. now left.
Qed.

Lemma py_dict_nodup {V : Type} (l : list (string * V)) :
  NoDup (map fst l) -> py_dict l = l.
Proof.
  intros H. unfold py_dict. now rewrite py_dict_acc.
Qed.

Lemma dict_set_keys {V : Type} k (v : V) d x :
  In x (map fst (dict_set k v d)) <-> x = k \/ In x (map fst d).
Proof.
  induction d as [|[k' v'] d IH]; simpl; [intuition|].
  destruct (String.eqb_spec k' k) as [->|_]; simpl; [intuition|].
  rewrite IH. intuition.
Qed.

Lemma dict_set_In {V : Type} k (v : V) d kv :
  In kv (dict_set k v d) -> kv = (k, v) \/ In kv d.
Proof.
  induction d as [|[k' v'] d IH]; simpl; [intuition|].
  destruct (String.eqb_spec k' k) as [->|_]; simpl; intuition.
Qed.

Lemma py_dict_In {V : Type} (l : list (string * V)) kv : In kv (py_dict l) -> In kv l.
Proof.
  unfold py_dict.
  assert (H : forall acc, In kv (fold_left (fun d x => dict_set (fst x) (snd x) d) l acc) ->
                          In kv acc \/ In kv l).
  { induction l as [|[k v] l IH]; simpl; intros acc Hin; [auto|].
    apply IH in Hin as [Hin|Hin]; auto.
    apply dict_set_In in Hin as [->|Hin]; auto. }
  intros Hin. apply H in Hin as [[]|Hin]. exact Hin.
Qed.

Lemma py_dict_keys {V : Type} (l : list (string * V)) x :
  In x (map fst (py_dict l)) -> In x (map fst l).
Proof.
  intros H. apply in_map_iff in H as [kv [<- Hin]]. apply in_map. now apply py_dict_In.
Qed.

Lemma lookup_tab {V : Type} (g : string -> V) idx L :
  In L idx -> lookup L (map (fun L => (L, g L)) idx) = Some (g L).
Proof.
  unfold lookup. induction idx as [|x idx IH]; simpl; intros H; [tauto|].
  destruct (String.eqb_spec x L) as [->|Hne]; [reflexivity|].
  apply IH. destruct H; congruence.
Qed.

(** ** Taking rows by an indexer *)

Lemma take_seq_from {A : Type} (pre l : list A) :
  take (pre ++ l) (seq (length pre) (length l)) = l.
Proof.
  revert pre; induction l as [|x l IH]; intros pre; simpl; [reflexivity|].
  rewrite nth_error_app2 by lia. rewrite Nat.sub_diag. simpl. f_equal.
  specialize (IH (pre ++ [x])). rewrite length_app, <- app_assoc in IH. simpl in IH.
  now rewrite Nat.add_1_r in IH.
Qed.

Lemma take_perm {A : Type} (l : list A) idx :
  Permutation idx (seq 0 (length l)) -> Permutation (take l idx) l.
Proof.
  intros H. rewrite <- (take_seq_from [] l) at 2. unfold take.
  now apply Permutation_flat_map.
Qed.

Lemma take_In {A : Type} (l : list A) idx x : In x (take l idx) -> In x l.
Proof.
  unfold take. rewrite in_flat_map. intros [i [_ H]].
  destruct (nth_error l i) eqn:E; [|contradiction].
  destruct H as [<-|[]]. eapply nth_error_In; eauto.
Qed.

(** ** What [average_reports] returns, and when it raises *)

Section Returned.

Variable argsort_desc : list float -> list nat.

Lemma report_final_single r0 :
  has_columns r0 -> NoDup (index r0) ->
  report_final argsort_desc [r0] = Err no_axis_1.
Proof.
  intros Hc Hnd. unfold report_final.
  rewrite (aggregate_series [r0] _ (concat_axis1_nodup [r0] ltac:(discriminate)
             ltac:(intros r [<-|[]]; exact Hnd))).
  - reflexivity.
  - cbn [columns map concat]. rewrite app_nil_r. apply Hc. simpl; auto.
Qed.

Lemma report_final_missing (reports : list (DataFrame float)) L :
  2 <= length reports ->
  (forall r, In r reports -> has_columns r /\ NoDup (index r)) ->
  In L summary_rows -> (forall r, In r reports -> ~ In L (index r)) ->
  exists missing,
    report_final argsort_desc reports = Err (KeyError missing) /\
    forall x, In x missing <->
              In x summary_rows /\ forall r, In r reports -> ~ In x (index r).
Proof.
  intros Hlen Hall HL Hmiss. unfold report_final.
  rewrite aggregate_tab by assumption. cbn [bind].
  rewrite drop_if_present_tab. cbn [bind]. rewrite drop_if_present_tab. cbn [bind].
  unfold reassemble.
  assert (Hin : forall x, In x summary_rows ->
            (In x (without ["accuracy"] (without ["micro avg"] (joined_index reports)))
             <-> exists r, In r reports /\ In x (index r))).
  { intros x Hx. rewrite !without_In, joined_index_In. simpl in Hx.
    destruct Hx as [<-|[<-|[]]]; simpl; split; try tauto;
      intros H; repeat split; auto; intros [E|[]]; discriminate E. }
  destruct (drop_tab_missing (firstn 4 (concat (map columns reports)))
              (fun L => agg_row (concat (map columns reports)) (joined_row reports L))
              (without ["accuracy"] (without ["micro avg"] (joined_index reports)))
              summary_rows L HL) as [missing [E Hm]].
  - rewrite (Hin L HL). intros [r [Hr HLr]]. exact (Hmiss r Hr HLr).
  - exists missing. rewrite E. split; [reflexivity|].
    intros x. rewrite Hm. split.
    + intros [Hx Hnot]. split; auto. intros r Hr HLr. apply Hnot, (Hin x Hx). eauto.
    + intros [Hx Hnot]. split; auto. rewrite (Hin x Hx). intros [r [Hr HLr]].
      exact (Hnot r Hr HLr).
Qed.

Hypothesis argsort_ok : argsort_contract argsort_desc.

Lemma sorted_classes_perm reports idx :
  Permutation (sorted_classes argsort_desc reports idx) (class_labels idx).
Proof.
  unfold sorted_classes. apply take_perm.
  destruct (argsort_ok (map (support_key reports) (class_labels idx))) as [H _].
  now rewrite length_map in H.
Qed.


Lemma class_labels_In idx L :
  In L (class_labels idx) <->
  In L idx /\ L <> "micro avg" /\ L <> "accuracy" /\ ~ In L summary_rows.
Proof.
  unfold class_labels. rewrite !without_In. simpl. intuition.
Qed.


Lemma row_order_NoDup reports idx :
  NoDup idx -> NoDup (row_order argsort_desc reports idx).
Proof.
  intros Hnd. unfold row_order. apply NoDup_app.
  - eapply Permutation_NoDup; [apply Permutation_sym, sorted_classes_perm|].
    unfold class_labels. now repeat apply without_NoDup.
  - unfold summary_rows. repeat constructor; simpl; intuition discriminate.
  - intros x Hx. eapply Permutation_in in Hx; [|apply sorted_classes_perm].
    apply class_labels_In in Hx. tauto.
Qed.

Lemma out_rows_tab (output_dict : bool) reports idx :
  NoDup idx ->
  out_rows (if output_dict
            then OutDict (T_to_dict (tab report_columns (final_row reports)
                                       (row_order argsort_desc reports idx)))
            else OutStr (tab report_columns (final_row reports)
                           (row_order argsort_desc reports idx)))
  = map (fun L => (L, value_row output_dict reports L)) (row_order argsort_desc reports idx).
Proof.
  intros Hnd. destruct output_dict; cbn [out_rows].
  - unfold T_to_dict. cbn [tab rows columns].
    replace (forallb (fun r => forallb is_int (snd r))
               (map (fun L => (L, final_row reports L)) (row_order argsort_desc reports idx)))
      with false.
    + rewrite map_map. cbn [fst snd]. apply py_dict_nodup.
      rewrite map_map. cbn [fst]. rewrite map_id. now apply row_order_NoDup.
    + symmetry. unfold row_order. rewrite map_app, forallb_app.
      apply andb_false_iff. right. reflexivity.
  - cbn [tab rows columns]. rewrite map_map. reflexivity.
Qed.

Lemma average_reports_returns r0 r1 rest output_dict :
  joinable r0 (r1 :: rest) ->
  In "macro avg" (index r0) -> In "weighted avg" (index r0) ->
  exists out,
    average_reports argsort_desc (r0 :: r1 :: rest) output_dict = Ok out /\
    out_rows out = map (fun L => (L, value_row output_dict (r0 :: r1 :: rest) L))
                       (row_order argsort_desc (r0 :: r1 :: rest) (index r0)).
Proof.
  intros (Hcols & Hall & Hsame) Hmacro Hweighted.
  unfold average_reports. rewrite report_final_tab by assumption. cbn [bind].
  eexists. split; [reflexivity|]. apply out_rows_tab. apply Hall. simpl; auto.
Qed.

Lemma average_reports_inv r0 rest output_dict out :
  joinable r0 rest ->
  average_reports argsort_desc (r0 :: rest) output_dict = Ok out ->
  2 <= length (r0 :: rest) /\
  In "macro avg" (index r0) /\ In "weighted avg" (index r0) /\
  out_rows out = map (fun L => (L, value_row output_dict (r0 :: rest) L))
                     (row_order argsort_desc (r0 :: rest) (index r0)).
Proof.
  intros Hj Hout. pose proof Hj as (Hcols & Hall & Hsame).
  destruct rest as [|r1 rest].
  - exfalso. unfold average_reports in Hout.
    rewrite report_final_single in Hout; [discriminate| |]; apply Hall; simpl; auto.
  - assert (Hin : forall L, In L summary_rows -> In L (index r0)).
    { intros L HL. destruct (in_dec string_dec L (index r0)) as [H|H]; [exact H|].
      exfalso. destruct (report_final_missing (r0 :: r1 :: rest) L) as [missing [E _]]; auto.
      - simpl; lia.
      - intros r Hr. destruct (Hall r Hr) as [H1 [H2 _]]. auto.
      - intros r [<-|Hr]; [exact H|]. intros HL'. apply H. eapply Hsame; eauto.
      - unfold average_reports in Hout. rewrite E in Hout. discriminate. }
    assert (Hmacro : In "macro avg" (index r0)) by (apply Hin; simpl; auto).
    assert (Hweighted : In "weighted avg" (index r0)) by (apply Hin; simpl; auto).
    destruct (average_reports_returns r0 r1 rest output_dict Hj Hmacro Hweighted)
      as [out' [E Hrows]].
    rewrite E in Hout. injection Hout as <-.
    repeat split; auto. simpl; lia.
Qed.

End Returned.

(** ** Valid inputs and integer supports *)

Lemma documented_has_columns r : columns r = report_columns -> has_columns r.
Proof.
  intros H name Hname. rewrite H. simpl in Hname.
  destruct Hname as [<-|[<-|[<-|[<-|[]]]]]; reflexivity.
Qed.

Lemma valid_joinable r0 rest : valid_reports (r0 :: rest) -> joinable r0 rest.
Proof.
  intros (_ & Hall & Hsame). repeat split.
  - apply Hall. simpl; auto.
  - apply documented_has_columns, Hall. exact H.
  - apply Hall. exact H.
  - apply Hall. exact H.
  - intros r L Hr HL. apply (Hsame r r0 L); simpl; auto.
Qed.





(** ** The claims *)

Section Claims.

Variable argsort_desc : list float -> list nat.
Hypothesis argsort_ok : argsort_contract argsort_desc.




End Claims.

(** ** Ties *)







Section Stability.

Variable argsort_desc : list float -> list nat.
Hypothesis argsort_ok : argsort_contract argsort_desc.


End Stability.

(** ** The sort pandas runs on a short column *)







(** *** numpy's insertion sort *)

Section InsertionRun.

Variable v : list float.







End InsertionRun.








Section ShortColumns.

Variable heapsort : list float -> list nat -> list nat.



End ShortColumns.

(** ** Labels and integer cells of any output *)

Ltac inv_bind H :=
  match type of H with
  | bind ?m _ = Ok _ =>
      let E := fresh "E" in
      destruct m eqn:E; cbn [bind] in H; [|discriminate H]
  end.

Lemma index_filter {A : Type} (p : string -> bool) (rws : list (string * list A)) :
  map fst (filter (fun r => p (fst r)) rws) = filter p (map fst rws).
Proof.
  induction rws as [|r rws IH]; simpl; [reflexivity|].
  destruct (p (fst r)); simpl; now rewrite IH.
Qed.

Lemma drop_index {A : Type} (df df' : DataFrame A) labels :
  drop df labels = Ok df' -> index df' = without labels (index df).
Proof.
  unfold drop. destruct (missing_labels df labels); [|discriminate].
  intros H. injection H as <-. unfold index, without. cbn [rows].
  apply (index_filter (fun L => negb (mem L labels))).
Qed.

Lemma drop_if_present_index df df' L :
  drop_if_present df L = Ok df' -> index df' = without [L] (index df).
Proof.
  unfold drop_if_present. destruct (mem L (index df)) eqn:E.
  - apply drop_index.
  - intros H. injection H as <-. symmetry. apply without_absent.
    intros x [<-|[]]. now apply mem_not_In.
Qed.

Lemma loc_index_incl {A : Type} (df df' : DataFrame A) labels :
  loc df labels = Ok df' -> incl (index df') (index df).
Proof.
  unfold loc. destruct (missing_labels df labels); [|discriminate].
  intros H. injection H as <-. unfold index. cbn [rows].
  intros x Hx. apply in_map_iff in Hx as [r [<- Hr]]. apply in_map.
  apply in_flat_map in Hr as [L [_ Hr]]. apply filter_In in Hr. tauto.
Qed.

Lemma mapM_fst {A B C : Type} (f : C * A -> result (C * B)) l l' :
  (forall x y, f x = Ok y -> fst y = fst x) ->
  mapM f l = Ok l' -> map fst l' = map fst l.
Proof.
  intros Hf. revert l'; induction l as [|x l IH]; simpl; intros l' H.
  - injection H as <-. reflexivity.
  - inv_bind H. inv_bind H. injection H as <-. simpl. f_equal; auto.
Qed.

Lemma round_first3_index df df' : round_first3 df = Ok df' -> index df' = index df.
Proof.
  unfold round_first3. destruct (nodupb (columns df)); [|discriminate].
  intros H. injection H as <-. unfold index. cbn [rows]. now rewrite map_map.
Qed.

Lemma astype_index df df' : astype_int_support df = Ok df' -> index df' = index df.
Proof.
  unfold astype_int_support. destruct (mem "support" (columns df)); [|discriminate].
  intros H. inv_bind H. injection H as <-. unfold index. cbn [rows].
  eapply mapM_fst; [|exact E]. intros x y Hy. cbn beta in Hy. inv_bind Hy.
  injection Hy as <-. reflexivity.
Qed.

Lemma T_to_dict_labels df x : In x (map fst (T_to_dict df)) -> In x (index df).
Proof.
  unfold T_to_dict. intros H. apply py_dict_keys in H.
  rewrite map_map in H. exact H.
Qed.




Section AnyInput.

Variable argsort_desc : list float -> list nat.

Lemma sort_values_index_incl df df' by_ :
  sort_values_desc argsort_desc df by_ = Ok df' -> incl (index df') (index df).
Proof.
  unfold sort_values_desc. destruct (count by_ (columns df)) as [|[|n]]; try discriminate.
  intros H. injection H as <-. unfold index. cbn [rows].
  intros x Hx. apply in_map_iff in Hx as [r [<- Hr]]. apply in_map.
  eapply take_In; eauto.
Qed.

Lemma reassemble_index_incl df rf :
  reassemble argsort_desc df = Ok rf -> incl (index rf) (index df).
Proof.
  unfold reassemble. intros H. inv_bind H. inv_bind H. inv_bind H. injection H as <-.
  unfold concat_axis0, index. cbn [rows]. rewrite map_app.
  intros x Hx. apply in_app_or in Hx as [Hx|Hx].
  - apply sort_values_index_incl in E0. apply E0 in Hx.
    rewrite (drop_index _ _ _ E) in Hx. apply without_In in Hx. tauto.
  - eapply loc_index_incl; eauto.
Qed.

Lemma report_final_labels reports rf L :
  report_final argsort_desc reports = Ok rf -> In L (index rf) ->
  L <> "micro avg" /\ L <> "accuracy".
Proof.
  unfold report_final. intros H HL.
  inv_bind H. inv_bind H. inv_bind H. inv_bind H. inv_bind H.
  rewrite (astype_index _ _ H), (round_first3_index _ _ E3) in HL.
  apply (reassemble_index_incl _ _ E2) in HL.
  rewrite (drop_if_present_index _ _ _ E1) in HL. apply without_In in HL as [HL Hacc].
  rewrite (drop_if_present_index _ _ _ E0) in HL. apply without_In in HL as [HL Hmicro].
  simpl in *. split; intros ->; tauto.
Qed.

Lemma out_labels_incl rf (output_dict : bool) :
  incl (out_labels (if output_dict then OutDict (T_to_dict rf) else OutStr rf)) (index rf).
Proof.
  intros x. destruct output_dict; unfold out_labels; cbn [out_rows].
  - apply T_to_dict_labels.
  - rewrite map_map. cbn [fst]. auto.
Qed.

(** C5.  For every input from which an output is produced, valid or not,
    the rows labelled "micro avg" and "accuracy" are absent from the
    output, even when every input report has them. *)
Theorem row_filtering reports output_dict out :
  average_reports argsort_desc reports output_dict = Ok out ->
  ~ In "micro avg" (out_labels out) /\ ~ In "accuracy" (out_labels out).
Proof.
  unfold average_reports. intros H. inv_bind H. injection H as <-.
  split; intros HL; apply out_labels_incl in HL;
    destruct (report_final_labels _ _ _ E HL) as [H1 H2]; congruence.
Qed.


End AnyInput.

Section MoreClaims.

Variable argsort_desc : list float -> list nat.

(** C8.  When the input sequence of reports is empty, the operation
    signals an error: [pd.concat] raises ValueError("No objects to
    concatenate"), the condition the specification names EmptyInputError. *)
Theorem empty_input (output_dict : bool) :
  average_reports argsort_desc [] output_dict = Err (ValueError "No objects to concatenate").
Proof. reflexivity. Qed.

(** C7 (amended).  For every input of at least two reports, each with the
    four columns and unique row labels, in which the row "macro avg" or the
    row "weighted avg" is missing from every report (hence missing after
    concatenation), the operation fails when it separates the summary rows
    (the [drop] of line 43) by signalling a KeyError that names the missing
    rows, the condition the specification names MissingSummaryRowError. *)
Theorem missing_summary_row reports output_dict L :
  2 <= length reports ->
  (forall r, In r reports -> has_columns r /\ NoDup (index r)) ->
  In L summary_rows ->
  (forall r, In r reports -> ~ In L (index r)) ->
  exists missing,
    average_reports argsort_desc reports output_dict = Err (KeyError missing) /\
    In L missing /\
    forall x, In x missing <->
              In x summary_rows /\ forall r, In r reports -> ~ In x (index r).
Proof.
  intros Hlen Hall HL Hmiss.
  destruct (report_final_missing argsort_desc reports L Hlen Hall HL Hmiss)
    as [missing [E Hm]].
  exists missing. unfold average_reports. rewrite E.
  split; [reflexivity|]. split; [|exact Hm]. apply Hm. auto.
Qed.

Hypothesis argsort_ok : argsort_contract argsort_desc.


End MoreClaims.

(** ** Column positions *)


Section ColumnPositions.

Variable argsort_desc : list float -> list nat.
Hypothesis argsort_ok : argsort_contract argsort_desc.



End ColumnPositions.

(** ** The heap only grows *)

Lemma update_app_r {A : Type} (l1 l2 : list A) n x :
  length l1 <= n -> update n x (l1 ++ l2) = l1 ++ update (n - length l1) x l2.
Proof.
  revert n; induction l1 as [|y l1 IH]; simpl; intros n H.
  - now rewrite Nat.sub_0_r.
  - destruct n as [|n]; [lia|]. simpl. f_equal. apply IH. lia.
Qed.

Lemma keeps_ret {A : Type} h0 (a : A) (Q : A -> Prop) : Q a -> keeps h0 (ret a) Q.
Proof.
  intros HQ h Hh. split; [exact Hh|]. simpl. intros b E. injection E as <-. exact HQ.
Qed.

Lemma keeps_lift {A : Type} h0 (r : result A) : keeps h0 (lift r) (fun _ => True).
Proof.
  intros h Hh. split; [exact Hh|auto].
Qed.

Lemma keeps_get h0 a : keeps h0 (get a) (fun _ => True).
Proof.
  intros h Hh. unfold get. destruct (nth_error h a) as [[df|df]|]; simpl; auto.
Qed.

Lemma keeps_get_cells h0 a : keeps h0 (get_cells a) (fun _ => True).
Proof.
  intros h Hh. unfold get_cells. destruct (nth_error h a) as [[df|df]|]; simpl; auto.
Qed.

Lemma keeps_new h0 o : keeps h0 (new o) (fun a => length h0 <= a).
Proof.
  intros h [fresh ->]. unfold new. simpl. split.
  - exists (fresh ++ [o]). now rewrite app_assoc.
  - intros a E. injection E as <-. rewrite length_app. lia.
Qed.

Lemma keeps_put h0 a o : length h0 <= a -> keeps h0 (put a o) (fun _ => True).
Proof.
  intros Ha h [fresh ->]. unfold put. simpl. split; [|auto].
  rewrite update_app_r by exact Ha. eexists. reflexivity.
Qed.

Lemma keeps_bind {A B : Type} h0 (m : M A) (k : A -> M B) (Q : A -> Prop) (R : B -> Prop) :
  keeps h0 m Q -> (forall a, Q a -> keeps h0 (k a) R) -> keeps h0 (bindM m k) R.
Proof.
  intros Hm Hk h Hh. unfold bindM. destruct (Hm h Hh) as [Hext HQ].
  destruct (m h) as [[a|e] h']; simpl in *.
  - apply Hk; auto.
  - split; [exact Hext|]. discriminate.
Qed.

Lemma keeps_weaken {A : Type} h0 (m : M A) (Q : A -> Prop) :
  keeps h0 m Q -> keeps h0 m (fun _ => True).
Proof.
  intros Hm h Hh. destruct (Hm h Hh). auto.
Qed.

Ltac keeps_step :=
  first
    [ apply keeps_lift
    | apply keeps_get
    | apply keeps_get_cells
    | apply keeps_new
    | apply keeps_put; assumption
    | apply keeps_ret; solve [auto]
    | eapply keeps_bind; [|cbv beta; intros] ].

Lemma keeps_get_all h0 addresses : keeps h0 (get_all addresses) (fun _ => True).
Proof.
  induction addresses as [|a rest IH]; simpl.
  - now apply keeps_ret.
  - eapply keeps_bind; [apply keeps_get|]. intros df _.
    eapply keeps_bind; [apply IH|]. intros dfs _. now apply keeps_ret.
Qed.

Lemma keeps_assign_reduced h0 df name reduce :
  length h0 <= df -> keeps h0 (assign_reduced df name reduce) (fun _ => True).
Proof.
  intros Hdf. unfold assign_reduced. repeat keeps_step.
Qed.

Lemma keeps_drop_if_present h0 df label :
  length h0 <= df -> keeps h0 (drop_if_present_heap df label) (fun a => length h0 <= a).
Proof.
  intros Hdf. unfold drop_if_present_heap.
  eapply keeps_bind; [apply keeps_get|]. intros d _.
  destruct (mem label (index d)).
  - eapply keeps_bind; [apply keeps_lift|]. intros c _. apply keeps_new.
  - now apply keeps_ret.
Qed.

Lemma keeps_aggregate h0 reports :
  keeps h0 (aggregate_heap reports) (fun a => length h0 <= a).
Proof.
  unfold aggregate_heap.
  eapply keeps_bind; [apply keeps_get_all|]. intros frames _.
  eapply keeps_bind; [apply keeps_lift|]. intros c _.
  eapply keeps_bind; [apply keeps_new|]. intros df Hdf.
  do 4 (eapply keeps_bind; [now apply keeps_assign_reduced|]; intros _ _).
  eapply keeps_bind; [apply keeps_get|]. intros d _. apply keeps_new.
Qed.

Lemma keeps_reassemble argsort h0 df :
  keeps h0 (reassemble_heap argsort df) (fun a => length h0 <= a).
Proof.
  unfold reassemble_heap. repeat keeps_step.
Qed.

Lemma keeps_render h0 report_final output_dict :
  length h0 <= report_final ->
  keeps h0 (render_heap report_final output_dict) (fun _ => True).
Proof.
  intros H. unfold render_heap. repeat keeps_step.
Qed.

Lemma keeps_average_reports argsort h0 reports output_dict :
  keeps h0 (average_reports_heap argsort reports output_dict) (fun _ => True).
Proof.
  unfold average_reports_heap.
  eapply keeps_bind; [apply keeps_aggregate|]. intros df1 Hdf1.
  eapply keeps_bind; [now apply keeps_drop_if_present|]. intros df2 Hdf2.
  eapply keeps_bind; [now apply keeps_drop_if_present|]. intros df3 Hdf3.
  eapply keeps_bind; [apply keeps_reassemble|]. intros rf Hrf.
  now apply keeps_render.
Qed.

(** ** The heap run computes [average_reports] *)

Lemma run_bind {A B : Type} (m : M A) (k : A -> M B) h a h' :
  m h = (Ok a, h') -> bindM m k h = k a h'.
Proof.
  intros E. unfold bindM. now rewrite E.
Qed.

Lemma run_lift {A B : Type} (r : result A) (k : A -> M B) h :
  bindM (lift r) k h = match r with Ok a => k a h | Err e => (Err e, h) end.
Proof.
  unfold bindM, lift. destruct r; reflexivity.
Qed.

Lemma get_old h l a d :
  nth_error h a = Some (FloatFrame d) -> get a (h ++ l) = (Ok d, h ++ l).
Proof.
  intros E. unfold get. rewrite nth_error_app1 by (apply nth_error_Some; congruence).
  now rewrite E.
Qed.

Lemma get_local h l k d :
  nth_error l k = Some (FloatFrame d) -> get (length h + k) (h ++ l) = (Ok d, h ++ l).
Proof.
  intros E. unfold get. rewrite nth_error_app2 by lia.
  replace (length h + k - length h) with k by lia. now rewrite E.
Qed.

Lemma get_cells_local h l k d :
  nth_error l k = Some (CellFrame d) -> get_cells (length h + k) (h ++ l) = (Ok d, h ++ l).
Proof.
  intros E. unfold get_cells. rewrite nth_error_app2 by lia.
  replace (length h + k - length h) with k by lia. now rewrite E.
Qed.

Lemma new_local h l o :
  new o (h ++ l) = (Ok (length h + length l), h ++ (l ++ [o])).
Proof.
  unfold new. now rewrite length_app, app_assoc.
Qed.

Lemma put_local h l k o :
  put (length h + k) o (h ++ l) = (Ok tt, h ++ update k o l).
Proof.
  unfold put. rewrite update_app_r by lia.
  now replace (length h + k - length h) with k by lia.
Qed.

Lemma get_all_ok h l addresses reports :
  Forall2 (fun a r => nth_error h a = Some (FloatFrame r)) addresses reports ->
  get_all addresses (h ++ l) = (Ok reports, h ++ l).
Proof.
  induction 1 as [|a r addresses reports Ha _ IH]; simpl; [reflexivity|].
  rewrite (run_bind _ _ _ _ _ (get_old h l a r Ha)).
  rewrite (run_bind _ _ _ _ _ IH). reflexivity.
Qed.

Lemma old_kept (h l : heap) b : b < length h -> nth_error (h ++ l) b = nth_error h b.
Proof.
  intros H. now apply nth_error_app1.
Qed.

Ltac run_step :=
  first
    [ erewrite run_bind by (apply new_local)
    | erewrite run_bind by (apply get_local; reflexivity)
    | erewrite run_bind by (apply get_old; eassumption)
    | erewrite run_bind by (apply put_local)
    | erewrite run_bind by (apply get_cells_local; reflexivity) ];
  cbn [length app update].

Ltac run_lift_step :=
  rewrite run_lift;
  match goal with
  | |- context [match ?r with Ok _ => _ | Err _ => _ end] =>
      destruct r; cbn [bind]; [|reflexivity]
  end.

Lemma assign_reduced_local h l k d name reduce :
  nth_error l k = Some (FloatFrame d) ->
  assign_reduced (length h + k) name reduce (h ++ l)
  = match (let* s := getitem d name in reduce s) with
    | Ok s => (Ok tt, h ++ update k (FloatFrame (setitem d name s)) l)
    | Err e => (Err e, h ++ l)
    end.
Proof.
  intros E. unfold assign_reduced.
  rewrite (run_bind _ _ _ _ _ (get_local h l k d E)). rewrite run_lift.
  destruct (let* s := getitem d name in reduce s); [|reflexivity].
  apply put_local.
Qed.

Lemma aggregate_heap_refines h addresses reports :
  Forall2 (fun a r => nth_error h a = Some (FloatFrame r)) addresses reports ->
  returns_frame (aggregate_heap addresses) (aggregate reports) h.
Proof.
  intros Hin. unfold returns_frame.
  replace (aggregate_heap addresses h) with (aggregate_heap addresses (h ++ []))
    by now rewrite app_nil_r.
  unfold aggregate_heap, aggregate.
  rewrite (run_bind _ _ _ _ _ (get_all_ok h [] addresses reports Hin)).
  run_lift_step. run_step.
  unfold bindM at 1. erewrite assign_reduced_local by reflexivity.
  destruct (getitem a "support") as [s|e]; cbn [bind]; [|reflexivity].
  destruct (sum_axis1 s) as [s'|e]; cbn [bind update]; [|reflexivity].
  unfold bindM at 1. erewrite assign_reduced_local by reflexivity.
  destruct (getitem (setitem a "support" s') "precision") as [s1|e]; cbn [bind];
    [|reflexivity].
  destruct (mean_axis1 s1) as [s1'|e]; cbn [bind update]; [|reflexivity].
  unfold bindM at 1. erewrite assign_reduced_local by reflexivity.
  destruct (getitem (setitem (setitem a "support" s') "precision" s1') "recall")
    as [s2|e]; cbn [bind]; [|reflexivity].
  destruct (mean_axis1 s2) as [s2'|e]; cbn [bind update]; [|reflexivity].
  unfold bindM at 1. erewrite assign_reduced_local by reflexivity.
  destruct (getitem (setitem (setitem (setitem a "support" s') "precision" s1')
                       "recall" s2') "f1-score") as [s3|e]; cbn [bind]; [|reflexivity].
  destruct (mean_axis1 s3) as [s3'|e]; cbn [bind update]; [|reflexivity].
  run_step. rewrite new_local. cbn [length app].
  eexists. split; [reflexivity|]. split.
  - rewrite nth_error_app2 by lia.
    replace (length h + 1 - length h) with 1 by lia. reflexivity.
  - intros b Hb. now apply old_kept.
Qed.

Lemma drop_if_present_heap_refines h df d label :
  nth_error h df = Some (FloatFrame d) ->
  returns_frame (drop_if_present_heap df label) (drop_if_present d label) h.
Proof.
  intros Hdf. unfold returns_frame.
  replace (drop_if_present_heap df label h) with (drop_if_present_heap df label (h ++ []))
    by now rewrite app_nil_r.
  unfold drop_if_present_heap, drop_if_present. run_step.
  destruct (mem label (index d)).
  - rewrite run_lift. destruct (drop d [label]) as [c|e]; [|reflexivity].
    rewrite new_local. cbn [length app].
    eexists. split; [reflexivity|]. split.
    + rewrite nth_error_app2 by lia.
      replace (length h + 0 - length h) with 0 by lia. reflexivity.
    + intros b Hb. now apply old_kept.
  - unfold ret. eexists. split; [reflexivity|]. rewrite app_nil_r. auto.
Qed.

Section HeapRefinement.

Variable argsort_desc : list float -> list nat.

Lemma reassemble_heap_refines h df d :
  nth_error h df = Some (FloatFrame d) ->
  returns_frame (reassemble_heap argsort_desc df) (reassemble argsort_desc d) h.
Proof.
  intros Hdf. unfold returns_frame.
  replace (reassemble_heap argsort_desc df h)
    with (reassemble_heap argsort_desc df (h ++ [])) by now rewrite app_nil_r.
  unfold reassemble_heap, reassemble. run_step.
  run_lift_step. run_step. run_step.
  run_lift_step. run_step.
  run_lift_step. run_step. run_step. run_step.
  rewrite new_local. cbn [length app].
  eexists. split; [reflexivity|]. split.
  - rewrite nth_error_app2 by lia.
    replace (length h + 3 - length h) with 3 by lia. reflexivity.
  - intros b Hb. now apply old_kept.
Qed.

Lemma nth_error_update {A : Type} (l : list A) n x :
  n < length l -> nth_error (update n x l) n = Some x.
Proof.
  revert n; induction l as [|y l IH]; simpl; intros n H; [lia|].
  destruct n as [|n]; simpl; [reflexivity|]. apply IH. lia.
Qed.

Lemma length_update {A : Type} (l : list A) n x : length (update n x l) = length l.
Proof.
  revert n; induction l as [|y l IH]; simpl; intros n; [reflexivity|].
  destruct n as [|n]; simpl; auto.
Qed.

Lemma render_heap_refines h rf d output_dict :
  nth_error h rf = Some (FloatFrame d) ->
  fst (render_heap rf output_dict h)
  = (let* r := round_first3 d in
     let* c := astype_int_support r in
     Ok (if output_dict then OutDict (T_to_dict c) else OutStr c)).
Proof.
  intros Hrf. assert (Hlt : rf < length h) by (apply nth_error_Some; congruence).
  unfold render_heap.
  rewrite (run_bind (get rf) _ h d h) by (unfold get; now rewrite Hrf).
  rewrite run_lift. destruct (round_first3 d) as [r|e]; cbn [bind]; [|reflexivity].
  erewrite run_bind by reflexivity.
  rewrite (run_bind (get rf) _ _ r (update rf (FloatFrame r) h))
    by (unfold get; now rewrite nth_error_update).
  rewrite run_lift. destruct (astype_int_support r) as [c|e]; cbn [bind]; [|reflexivity].
  erewrite run_bind by reflexivity.
  rewrite (run_bind (get_cells rf) _ _ c
             (update rf (CellFrame c) (update rf (FloatFrame r) h))).
  - reflexivity.
  - unfold get_cells. now rewrite nth_error_update by now rewrite length_update.
Qed.

Lemma average_reports_heap_refines h addresses reports output_dict :
  Forall2 (fun a r => nth_error h a = Some (FloatFrame r)) addresses reports ->
  fst (average_reports_heap argsort_desc addresses output_dict h)
  = average_reports argsort_desc reports output_dict.
Proof.
  intros Hin. unfold average_reports_heap, average_reports, report_final.
  pose proof (aggregate_heap_refines h addresses reports Hin) as HA.
  unfold returns_frame in HA. unfold bindM at 1.
  destruct (aggregate_heap addresses h) as [[df1|e] h1]; [|now rewrite HA].
  destruct HA as (d1 & -> & Hd1 & _). cbn [bind].
  pose proof (drop_if_present_heap_refines h1 df1 d1 "micro avg" Hd1) as HB.
  unfold returns_frame in HB. unfold bindM at 1.
  destruct (drop_if_present_heap df1 "micro avg" h1) as [[df2|e] h2]; [|now rewrite HB].
  destruct HB as (d2 & -> & Hd2 & _). cbn [bind].
  pose proof (drop_if_present_heap_refines h2 df2 d2 "accuracy" Hd2) as HC.
  unfold returns_frame in HC. unfold bindM at 1.
  destruct (drop_if_present_heap df2 "accuracy" h2) as [[df3|e] h3]; [|now rewrite HC].
  destruct HC as (d3 & -> & Hd3 & _). cbn [bind].
  pose proof (reassemble_heap_refines h3 df3 d3 Hd3) as HD.
  unfold returns_frame in HD. unfold bindM at 1.
  destruct (reassemble_heap argsort_desc df3 h3) as [[rf|e] h4]; [|now rewrite HD].
  destruct HD as (d4 & -> & Hd4 & _). cbn [bind].
  rewrite (render_heap_refines h4 rf d4 output_dict Hd4).
  destruct (round_first3 d4); cbn [bind]; [|reflexivity].
  destruct (astype_int_support a); reflexivity.
Qed.

(** C9.  For every input, the operation does not mutate any of the input
    reports: the heap after the call is the heap before it followed by the
    objects the call created, so every object that existed, the input
    reports among them, is as it was; and what is returned is a value
    computed from the contents of the reports, which names no object. *)
Theorem inputs_not_mutated (h : heap) (reports : list nat) (output_dict : bool) :
  exists fresh,
    snd (average_reports_heap argsort_desc reports output_dict h) = h ++ fresh /\
    (forall a, a < length h ->
       nth_error (snd (average_reports_heap argsort_desc reports output_dict h)) a
       = nth_error h a) /\
    (forall frames,
       Forall2 (fun a r => nth_error h a = Some (FloatFrame r)) reports frames ->
       fst (average_reports_heap argsort_desc reports output_dict h)
       = average_reports argsort_desc frames output_dict).
Proof.
  destruct (keeps_average_reports argsort_desc h reports output_dict h) as [[fresh E] _].
  - exists []. now rewrite app_nil_r.
  - exists fresh. split; [exact E|]. split.
    + intros a Ha. rewrite E. now apply old_kept.
    + intros frames Hin. now apply average_reports_heap_refines.
Qed.

End HeapRefinement.

(** ** More about the domain and the numbers *)

Section Domain.

Variable argsort_desc : list float -> list nat.

(** A single report: [df['support']] is a Series, and [.sum(1)] raises. *)
Theorem single_report_raises r (output_dict : bool) :
  has_columns r -> NoDup (index r) ->
  average_reports argsort_desc [r] output_dict = Err no_axis_1.
Proof.
  intros Hc Hnd. unfold average_reports.
  now rewrite report_final_single.
Qed.

Hypothesis argsort_ok : argsort_contract argsort_desc.


End Domain.

(** Rounding to 2 decimals, as numpy does it in float64.  For a value in
    [0, 1] the result is the float written with two decimals, n/100 for a
    whole number n of hundredths, and n/100 is within half a hundredth of
    the value, up to the rounding of the product by 100. *)
Theorem round2_two_decimals q :
  (0 <= q <= 1)%Q ->
  exists n : Z,
    round2 (Fin q) = f64 (inject_Z n / 100) /\ (0 <= n <= 100)%Z /\
    (Qabs (inject_Z n / 100 - q) <= (1 # 200) + (1 # 7036874417766400))%Q.
Proof.
  intros Hq. destruct (round2_error q Hq) as [n [E [Hn Herr]]].
  exists n. split; [exact E|]. split; [exact Hn|]. now apply (proj1 (Qabs_bounds _ _)).
Qed.

(** ** The claims on the example reports *)

Ltac prove_valid :=
  split; [discriminate|]; split;
  [ intros r Hr; simpl in Hr;
    repeat (destruct Hr as [<-|Hr]; [split; [reflexivity|split;
              [apply nodupb_NoDup; reflexivity|repeat constructor]]|]);
    destruct Hr
  | intros r r' L Hr Hr'; simpl in Hr, Hr';
    repeat (destruct Hr as [<-|Hr]; [|]); try destruct Hr;
    repeat (destruct Hr' as [<-|Hr']; [|]); try destruct Hr';
    intros H; exact H ].

Lemma folds_valid : valid_reports [fold_a; fold_b].
Proof. prove_valid. Qed.












(** C5 on the two folds, which both have "micro avg" and "accuracy". *)
Lemma row_filtering_witness :
  In "micro avg" (index fold_a) /\ In "accuracy" (index fold_a) /\
  In "micro avg" (index fold_b) /\ In "accuracy" (index fold_b) /\
  exists out,
    average_reports stable_argsort [fold_a; fold_b] true = Ok out /\
    ~ In "micro avg" (out_labels out) /\ ~ In "accuracy" (out_labels out).
Proof.
  repeat (split; [simpl; auto 10|]).
  eexists. split; [vm_compute; reflexivity|].
  apply (row_filtering stable_argsort [fold_a; fold_b] true).
  vm_compute. reflexivity.
Defined.

(** C6 on the two folds: line 49 made the supports integers, and the
    transposition of line 52 hands them to the dictionary as floats. *)
Theorem dict_support_is_float :
  average_reports stable_argsort [fold_a; fold_b] true
  = Ok (OutDict
          [("A", [("precision", PyFloat (f64 0.8)); ("recall", PyFloat (f64 0.71));
                  ("f1-score", PyFloat (f64 0.75)); ("support", PyFloat (Fin 20))]);
           ("B", [("precision", PyFloat (f64 0.61)); ("recall", PyFloat (f64 0.5));
                  ("f1-score", PyFloat (f64 0.55)); ("support", PyFloat (Fin 10))]);
           ("macro avg", [("precision", PyFloat (f64 0.71));
                          ("recall", PyFloat (f64 0.6));
                          ("f1-score", PyFloat (f64 0.65));
                          ("support", PyFloat (Fin 30))]);
           ("weighted avg", [("precision", PyFloat (f64 0.74));
                             ("recall", PyFloat (f64 0.64));
                             ("f1-score", PyFloat (f64 0.68));
                             ("support", PyFloat (Fin 30))])]).
Proof. vm_compute. reflexivity. Qed.


(** C7 on two folds without "macro avg". *)
Lemma missing_summary_row_witness :
  exists missing,
    average_reports stable_argsort [fold_b_no_macro; fold_b_no_macro] false
    = Err (KeyError missing) /\
    In "macro avg" missing /\
    forall x, In x missing <->
              In x summary_rows /\
              forall r, In r [fold_b_no_macro; fold_b_no_macro] -> ~ In x (index r).
Proof.
  apply (missing_summary_row stable_argsort [fold_b_no_macro; fold_b_no_macro] false
           "macro avg").
  - simpl. lia.
  - intros r [<-|[<-|[]]]; (split; [apply documented_has_columns; reflexivity
                                   |apply nodupb_NoDup; reflexivity]).
  - simpl. auto.
  - intros r [<-|[<-|[]]]; simpl; intuition discriminate.
Defined.

(** C7 as stated fails: "macro avg" is missing from the second report only,
    the outer join keeps the row, and an output is produced. *)
Lemma summary_row_missing_from_one_report :
  ~ In "macro avg" (index fold_b_no_macro) /\
  average_reports stable_argsort [fold_a; fold_b_no_macro] false
  = Ok (OutStr
          (mkDF report_columns
             [("A", [CFloat (f64 0.8); CFloat (f64 0.71); CFloat (f64 0.75);
                     CInt 20]);
              ("B", [CFloat (f64 0.61); CFloat (f64 0.5); CFloat (f64 0.55);
                     CInt 10]);
              ("macro avg", [CFloat (f64 0.7); CFloat (f64 0.6);
                             CFloat (f64 0.65); CInt 15]);
              ("weighted avg", [CFloat (f64 0.74); CFloat (f64 0.64);
                                CFloat (f64 0.68); CInt 30])])).
Proof.
  split; [simpl; intuition discriminate|]. vm_compute. reflexivity.
Qed.



(** A single report on the example. *)
Lemma single_report_raises_witness :
  average_reports stable_argsort [fold_a] true = Err no_axis_1.
Proof.
  apply (single_report_raises stable_argsort fold_a true).
  - apply documented_has_columns. reflexivity.
  - apply nodupb_NoDup. reflexivity.
Defined.



(** ** Reports that lack a column *)

Lemma count_not_In name cols : ~ In name cols -> count name cols = 0.
Proof.
  unfold count. induction cols as [|c cols IH]; simpl; intros H; [reflexivity|].
  destruct (String.eqb_spec name c) as [->|_]; [tauto|]. apply IH. tauto.
Qed.

Lemma count_concat_absent name (reports : list (DataFrame float)) :
  (forall r, In r reports -> ~ In name (columns r)) ->
  count name (concat (map columns reports)) = 0.
Proof.
  induction reports as [|r reports IH]; simpl; intros H; [reflexivity|].
  rewrite count_app, count_not_In by auto. simpl. auto.
Qed.

Lemma getitem_absent df name :
  count name (columns df) = 0 -> getitem df name = Err (KeyError [name]).
Proof.
  unfold getitem. now intros ->.
Qed.

Ltac aggregate_step :=
  rewrite getitem_frame by (cbn [agg_frame columns]; assumption);
  cbn [bind sum_axis1 mean_axis1];
  rewrite setitem_agg by (cbn [agg_frame columns]; lia).

Ltac aggregate_stop_absent :=
  rewrite getitem_absent by (cbn [agg_frame columns]; assumption); reflexivity.

Ltac aggregate_stop_series :=
  match goal with
  | |- context [getitem ?d ?n] =>
      let v := fresh "v" in
      let E := fresh "E" in
      destruct (getitem_series d n) as [v E];
      [cbn [agg_frame columns]; assumption|rewrite E; reflexivity]
  end.

(** Where lines 33-36 stop when the concatenation has no column, or a
    single column, of one of the four names. *)
Lemma aggregate_column_count (reports : list (DataFrame float)) name :
  reports <> [] ->
  (forall r, In r reports -> NoDup (index r)) ->
  In name report_columns ->
  (forall other, In other report_columns -> other <> name ->
     2 <= count other (concat (map columns reports))) ->
  (count name (concat (map columns reports)) = 0 ->
   aggregate reports = Err (KeyError [name])) /\
  (count name (concat (map columns reports)) = 1 ->
   aggregate reports = Err no_axis_1).
Proof.
  intros Hne Hnd Hname Hothers. unfold aggregate.
  rewrite concat_axis1_nodup by assumption. cbn [bind].
  set (df := mkDF (concat (map columns reports))
               (map (fun L => (L, joined_row reports L)) (joined_index reports))).
  change (concat (map columns reports)) with (columns df) in Hothers |- *.
  simpl in Hname. destruct Hname as [<-|[<-|[<-|[<-|[]]]]].
  - assert (Hs : 2 <= count "support" (columns df))
      by (apply Hothers; [simpl; auto|discriminate]).
    split; intros Hc.
    + aggregate_step. aggregate_stop_absent.
    + aggregate_step. aggregate_stop_series.
  - assert (Hs : 2 <= count "support" (columns df))
      by (apply Hothers; [simpl; auto|discriminate]).
    assert (Hp : 2 <= count "precision" (columns df))
      by (apply Hothers; [simpl; auto|discriminate]).
    split; intros Hc.
    + aggregate_step. aggregate_step. aggregate_stop_absent.
    + aggregate_step. aggregate_step. aggregate_stop_series.
  - assert (Hs : 2 <= count "support" (columns df))
      by (apply Hothers; [simpl; auto|discriminate]).
    assert (Hp : 2 <= count "precision" (columns df))
      by (apply Hothers; [simpl; auto|discriminate]).
    assert (Hr : 2 <= count "recall" (columns df))
      by (apply Hothers; [simpl; auto 10|discriminate]).
    split; intros Hc.
    + aggregate_step. aggregate_step. aggregate_step. aggregate_stop_absent.
    + aggregate_step. aggregate_step. aggregate_step. aggregate_stop_series.
  - split; intros Hc.
    + aggregate_stop_absent.
    + aggregate_stop_series.
Qed.

Section MissingColumn.

Variable argsort_desc : list float -> list nat.

(** A column none of the reports has.  For two or more reports with unique
    row labels that all lack the column [name], one of the four, and have
    each of the other three once, the operation raises KeyError([name]) on
    the line of 33-36 that selects it. *)
Theorem missing_column_raises (reports : list (DataFrame float)) (output_dict : bool) name :
  2 <= length reports ->
  (forall r, In r reports -> NoDup (index r)) ->
  In name report_columns ->
  (forall r, In r reports -> ~ In name (columns r)) ->
  (forall r other, In r reports -> In other report_columns -> other <> name ->
     count other (columns r) = 1) ->
  average_reports argsort_desc reports output_dict = Err (KeyError [name]).
Proof.
  intros Hlen Hnd Hname Habsent Hothers.
  unfold average_reports, report_final.
  destruct (aggregate_column_count reports name) as [H0 _]; auto.
  - intros ->. simpl in Hlen. lia.
  - intros other Ho Hneq. rewrite count_concat; [exact Hlen|].
    intros r Hr. now apply Hothers.
  - rewrite H0; [reflexivity|]. now apply count_concat_absent.
Qed.

(** A column only one report has.  When exactly one column of all the
    reports is labelled [name], one of the four, and every report has each
    of the other three once, [df[name]] is a Series and the operation
    raises the ValueError of [.sum(1)] or [.mean(1)]. *)
Theorem column_of_one_report_raises (reports : list (DataFrame float)) (output_dict : bool)
    name :
  2 <= length reports ->
  (forall r, In r reports -> NoDup (index r)) ->
  In name report_columns ->
  count name (concat (map columns reports)) = 1 ->
  (forall r other, In r reports -> In other report_columns -> other <> name ->
     count other (columns r) = 1) ->
  average_reports argsort_desc reports output_dict = Err no_axis_1.
Proof.
  intros Hlen Hnd Hname Hone Hothers.
  unfold average_reports, report_final.
  destruct (aggregate_column_count reports name) as [_ H1]; auto.
  - intros ->. simpl in Hlen. lia.
  - intros other Ho Hneq. rewrite count_concat; [exact Hlen|].
    intros r Hr. now apply Hothers.
  - rewrite H1; [reflexivity|exact Hone].
Qed.

End MissingColumn.

(** Both on examples: no fold has the column "recall"; one fold has it. *)
Lemma missing_column_raises_witness :
  average_reports stable_argsort [fold_a_no_recall; fold_b_no_recall] false
  = Err (KeyError ["recall"]).
Proof.
  apply (missing_column_raises stable_argsort [fold_a_no_recall; fold_b_no_recall] false
           "recall").
  - simpl. lia.
  - intros r [<-|[<-|[]]]; apply nodupb_NoDup; reflexivity.
  - simpl. auto.
  - intros r [<-|[<-|[]]]; simpl; intros [E|[E|[E|[]]]]; discriminate E.
  - intros r other [<-|[<-|[]]] [<-|[<-|[<-|[<-|[]]]]] Hne;
      try reflexivity; now elim Hne.
Defined.

Lemma column_of_one_report_raises_witness :
  average_reports stable_argsort [fold_a; fold_b_no_recall] false = Err no_axis_1.
Proof.
  apply (column_of_one_report_raises stable_argsort [fold_a; fold_b_no_recall] false
           "recall").
  - simpl. lia.
  - intros r [<-|[<-|[]]]; apply nodupb_NoDup; reflexivity.
  - simpl. auto.
  - reflexivity.
  - intros r other [<-|[<-|[]]] [<-|[<-|[<-|[<-|[]]]]] Hne;
      try reflexivity; now elim Hne.
Defined.

(** ** Reports that do not share their labels *)






Lemma joined_index_NoDup reports : NoDup (joined_index reports).
Proof.
  apply unique_NoDup.
Qed.

Section OuterJoin.

Variable argsort_desc : list float -> list nat.

(** The final frame when the reports need not have the same rows: its rows
    are those of the union of the reports' labels. *)
Lemma report_final_joined r0 r1 rest :
  let reports := r0 :: r1 :: rest in
  columns r0 = report_columns ->
  (forall r, In r reports -> has_columns r /\ well_formed r) ->
  (forall S, In S summary_rows -> exists r, In r reports /\ In S (index r)) ->
  report_final argsort_desc reports
  = Ok (tab report_columns (final_row reports)
          (row_order argsort_desc reports (joined_index reports))).
Proof.
  intros reports Hcols Hall Hsum.
  assert (Hin : forall L, In L summary_rows ->
            In L (without ["accuracy"] (without ["micro avg"] (joined_index reports)))).
  { intros L HL. rewrite !without_In, joined_index_In. split; [split|].
    - now apply Hsum.
    - simpl in HL. destruct HL as [<-|[<-|[]]]; intros [E|[]]; discriminate E.
    - simpl in HL. destruct HL as [<-|[<-|[]]]; intros [E|[]]; discriminate E. }
  unfold report_final. rewrite aggregate_tab.
  2:{ simpl. lia. }
  2:{ intros r Hr. destruct (Hall r Hr) as [H1 [H2 _]]. auto. }
  fold reports.
  replace (firstn 4 (concat (map columns reports))) with report_columns
    by (subst reports; cbn [map concat]; rewrite Hcols; reflexivity).
  cbn [bind]. rewrite drop_if_present_tab. cbn [bind].
  rewrite drop_if_present_tab. cbn [bind].
  unfold reassemble. rewrite drop_tab by exact Hin.
  cbn [bind]. rewrite sort_values_tab by reflexivity. cbn [bind].
  rewrite loc_tab.
  2:{ apply without_NoDup, without_NoDup, joined_index_NoDup. }
  2:{ exact Hin. }
  cbn [bind]. rewrite concat_axis0_tab.
  rewrite round_first3_tab by (apply nodupb_NoDup; reflexivity). cbn [bind].
  erewrite astype_tab.
  - f_equal. unfold row_order, sorted_classes, class_labels. f_equal. f_equal. f_equal. f_equal.
    apply map_ext. intros L. unfold agg_row. subst reports.
    rewrite aggregated_rows by assumption. reflexivity.
  - intros L. unfold agg_row. subst reports.
    rewrite aggregated_rows by assumption. reflexivity.
Qed.

Hypothesis argsort_ok : argsort_contract argsort_desc.

Lemma average_reports_joined r0 r1 rest output_dict :
  let reports := r0 :: r1 :: rest in
  columns r0 = report_columns ->
  (forall r, In r reports -> has_columns r /\ well_formed r) ->
  (forall S, In S summary_rows -> exists r, In r reports /\ In S (index r)) ->
  exists out,
    average_reports argsort_desc reports output_dict = Ok out /\
    out_rows out = map (fun L => (L, value_row output_dict reports L))
                       (row_order argsort_desc reports (joined_index reports)).
Proof.
  intros reports Hcols Hall Hsum.
  unfold average_reports. subst reports.
  rewrite report_final_joined by assumption. cbn [bind].
  eexists. split; [reflexivity|].
  apply out_rows_tab; [exact argsort_ok|apply joined_index_NoDup].
Qed.

(** Whenever two or more reports with the four columns give an output, the
    output is the tabulation of the joined labels. *)
Lemma average_reports_joined_inv r0 r1 rest output_dict out :
  let reports := r0 :: r1 :: rest in
  columns r0 = report_columns ->
  (forall r, In r reports -> has_columns r /\ well_formed r) ->
  average_reports argsort_desc reports output_dict = Ok out ->
  (forall S, In S summary_rows -> exists r, In r reports /\ In S (index r)) /\
  out_rows out = map (fun L => (L, value_row output_dict reports L))
                     (row_order argsort_desc reports (joined_index reports)).
Proof.
  intros reports Hcols Hall Hout.
  assert (Hsum : forall S, In S summary_rows -> exists r, In r reports /\ In S (index r)).
  { intros S HS.
    destruct (in_dec string_dec S (joined_index reports)) as [H|H];
      [now apply joined_index_In|].
    exfalso. destruct (report_final_missing argsort_desc reports S) as [missing [E _]]; auto.
    - simpl; lia.
    - intros r Hr. destruct (Hall r Hr) as [H1 [H2 _]]. auto.
    - intros r Hr HS'. apply H, joined_index_In. eauto.
    - unfold average_reports in Hout. rewrite E in Hout. discriminate. }
  destruct (average_reports_joined r0 r1 rest output_dict Hcols Hall Hsum) as [out' [E Hrows]].
  fold reports in E, Hrows. rewrite E in Hout. injection Hout as <-. split; assumption.
Qed.





(** The two output forms show the same table.  Whenever such reports give
    the text output, they give the dictionary too, with the same row labels
    in the same order and the same three metrics in each row; where the
    text shows the support [z], the dictionary holds the float of [z]. *)
Theorem output_forms_agree r0 r1 rest outs :
  columns r0 = report_columns ->
  (forall r, In r (r0 :: r1 :: rest) -> has_columns r /\ well_formed r) ->
  average_reports argsort_desc (r0 :: r1 :: rest) false = Ok outs ->
  exists outd,
    average_reports argsort_desc (r0 :: r1 :: rest) true = Ok outd /\
    out_labels outd = out_labels outs /\
    forall L, In L (out_labels outs) ->
      out_value outd L "precision" = out_value outs L "precision" /\
      out_value outd L "recall" = out_value outs L "recall" /\
      out_value outd L "f1-score" = out_value outs L "f1-score" /\
      exists z, out_value outs L "support" = Some (PyInt z) /\
                out_value outd L "support" = Some (PyFloat (Fin (inject_Z z))).
Proof.
  intros Hcols Hall Hout.
  destruct (average_reports_joined_inv r0 r1 rest false outs Hcols Hall Hout)
    as [Hsum Hs].
  destruct (average_reports_joined r0 r1 rest true Hcols Hall Hsum) as [outd [E Hd]].
  exists outd. split; [exact E|].
  unfold out_labels, out_value. rewrite Hs, Hd, !map_map. cbn [fst]. split; [reflexivity|].
  rewrite map_id. intros L HL. rewrite !lookup_tab by exact HL.
  repeat split; try reflexivity. eexists. split; reflexivity.
Qed.

End OuterJoin.

(** ** Metrics stay in range *)

Lemma finite_all_Fin l (P : Q -> Prop) :
  (forall x, In x l -> exists q, x = Fin q /\ P q) ->
  Forall P (finite l) /\ length (finite l) = length l.
Proof.
  induction l as [|x l IH]; intros H; [split; [constructor|reflexivity]|].
  destruct (H x (or_introl eq_refl)) as [q [-> Hq]].
  destruct IH as [IH1 IH2]; [intros y Hy; apply H; now right|].
  change (finite (Fin q :: l)) with (q :: finite l).
  split; [constructor; auto|simpl; congruence].
Qed.

Lemma nanmean_unit_interval l :
  l <> [] ->
  (forall x, In x l -> exists q, x = Fin q /\ (0 <= q <= 1)%Q) ->
  exists m, nanmean l = Fin m /\ (0 <= m <= 1)%Q.
Proof.
  intros Hne H. destruct (finite_all_Fin l unit_interval H) as [Hall Hlen].
  unfold nanmean. destruct (finite l) as [|q qs] eqn:E.
  - destruct l; [congruence|discriminate].
  - eexists. split; [reflexivity|]. exact (mean_unit_interval q qs Hall).
Qed.

Lemma round2_unit_interval q :
  (0 <= q <= 1)%Q -> exists v, round2 (Fin q) = Fin v /\ (0 <= v <= 1)%Q.
Proof.
  intros Hq. destruct (round2_error q Hq) as [n [E [[Hn0 Hn1] _]]].
  rewrite E. eexists. split; [reflexivity|].
  rewrite Zle_Qle in Hn0, Hn1.
  change (inject_Z 0) with 0%Q in Hn0. change (inject_Z 100) with 100%Q in Hn1.
  apply (round64_le_int _ 1); [|reflexivity]. change (inject_Z 1) with 1%Q. split.
  - apply Qle_shift_div_l; [reflexivity|]. lra.
  - apply Qle_shift_div_r; [reflexivity|]. lra.
Qed.

Section Numbers.

Variable argsort_desc : list float -> list nat.
Hypothesis argsort_ok : argsort_contract argsort_desc.

(** Metrics stay in range.  For every valid input from which an output is
    produced and every row of the output, a metric whose cells lie in
    [0, 1] in every report has an output value in [0, 1]. *)
Theorem metrics_stay_in_range reports (output_dict : bool) out L name :
  valid_reports reports ->
  average_reports argsort_desc reports output_dict = Ok out ->
  In L (out_labels out) ->
  In name ["precision"; "recall"; "f1-score"] ->
  (forall x, In x (col reports L name) -> exists q, x = Fin q /\ (0 <= q <= 1)%Q) ->
  exists v, out_value out L name = Some (PyFloat (Fin v)) /\ (0 <= v <= 1)%Q.
Proof.
  intros Hvalid Hout HL Hname Hcells.
  destruct reports as [|r0 rest]; [destruct Hvalid as [H _]; congruence|].
  apply valid_joinable in Hvalid.
  destruct (average_reports_inv argsort_desc argsort_ok r0 rest output_dict out Hvalid Hout)
    as (_ & _ & _ & Hrows).
  destruct (nanmean_unit_interval (col (r0 :: rest) L name)) as [m [Em Hm]];
    [discriminate|exact Hcells|].
  destruct (round2_unit_interval m Hm) as [v [Ev Hv]].
  exists v. split; [|exact Hv].
  unfold out_value, out_labels in *. rewrite Hrows in *.
  rewrite map_map in HL. cbn [fst] in HL. rewrite map_id in HL.
  rewrite lookup_tab by exact HL. rewrite <- Ev, <- Em.
  simpl in Hname. destruct Hname as [<-|[<-|[<-|[]]]]; reflexivity.
Qed.

End Numbers.

(** ** The rows "micro avg" and "accuracy" of the reports *)









Section DroppedRows.

Variable argsort_desc : list float -> list nat.




End DroppedRows.

(** ** The further properties on the example reports *)

Lemma joined_folds_ok r : In r [fold_a; fold_c] -> has_columns r /\ well_formed r.
Proof.
  intros [<-|[<-|[]]];
    (split; [apply documented_has_columns; reflexivity|
             split; [apply nodupb_NoDup; reflexivity|repeat constructor]]).
Qed.




Lemma output_forms_agree_witness :
  exists outs outd,
    average_reports stable_argsort [fold_a; fold_c] false = Ok outs /\
    average_reports stable_argsort [fold_a; fold_c] true = Ok outd /\
    out_labels outd = out_labels outs /\
    forall L, In L (out_labels outs) ->
      out_value outd L "precision" = out_value outs L "precision" /\
      out_value outd L "recall" = out_value outs L "recall" /\
      out_value outd L "f1-score" = out_value outs L "f1-score" /\
      exists z, out_value outs L "support" = Some (PyInt z) /\
                out_value outd L "support" = Some (PyFloat (Fin (inject_Z z))).
Proof.
  eexists.
  assert (E : average_reports stable_argsort [fold_a; fold_c] false = Ok _)
    by (vm_compute; reflexivity).
  destruct (output_forms_agree stable_argsort stable_argsort_contract fold_a fold_c [] _
              eq_refl joined_folds_ok E) as [outd H].
  exists outd. split; [exact E|exact H].
Defined.

(** The precision of "A" in the two folds is 0.80 and 0.81. *)
Lemma metrics_stay_in_range_witness :
  exists out v,
    average_reports stable_argsort [fold_a; fold_b] true = Ok out /\
    out_value out "A" "precision" = Some (PyFloat (Fin v)) /\ (0 <= v <= 1)%Q.
Proof.
  eexists.
  assert (E : average_reports stable_argsort [fold_a; fold_b] true = Ok _)
    by (vm_compute; reflexivity).
  destruct (metrics_stay_in_range stable_argsort stable_argsort_contract
              [fold_a; fold_b] true _ "A" "precision" folds_valid E) as [v H].
  - vm_compute. auto.
  - simpl. auto.
  - intros x [<-|[<-|[]]]; eexists; (split; [reflexivity|]);
      split; apply Qle_bool_iff; vm_compute; reflexivity.
  - exists v. split; [exact E|exact H].
Defined.


(** Rounding the float 0.805. *)
Lemma round2_two_decimals_witness :
  exists n : Z,
    round2 (f64 0.805) = f64 (inject_Z n / 100) /\ (0 <= n <= 100)%Z /\
    (Qabs (inject_Z n / 100 - round64 0.805) <= (1 # 200) + (1 # 7036874417766400))%Q.
Proof.
  apply (round2_two_decimals (round64 0.805)).
  split; apply Qle_bool_iff; vm_compute; reflexivity.
Defined.
